(** * TemplateString: lexer, segment parser and renderers of the terminal title extension

    Shallow embedding of [extensions/TerminalTitle/src/TemplateString.ts].

    Modelling conventions:
    - a JavaScript string is a [string]; its characters are the 8-bit
      characters of [ascii];
    - column numbers and lengths are small non-negative integers: [nat];
    - a [while] loop is a [Fixpoint] on a fuel argument; running out of fuel
      is the distinct outcome [OutOfFuel], and the theorems show that the fuel
      each caller supplies is always enough;
    - a JavaScript exception is the outcome [Thrown]. *)

From Stdlib Require Import Ascii String Lia.
From stdpp Require Import base option list strings gmap.

Local Open Scope nat_scope.

(** ** Outcomes *)

Inductive Outcome (A : Type) : Type :=
| Done (a : A)
| Thrown (msg : string)
| OutOfFuel.
Arguments Done {A} a.
Arguments Thrown {A} msg.
Arguments OutOfFuel {A}.

(** ** Strings *)

(** [s.slice(n)]: the string without its first [n] characters. *)
Fixpoint slice (n : nat) (s : string) : string :=
  match n, s with
  | 0, _ => s
  | S n', String _ s' => slice n' s'
  | S _, EmptyString => EmptyString
  end.

(** The double quote character, as a string. *)
Definition dquote : string := String (ascii_of_nat 34) EmptyString.

(** ** Regular expressions

    The eight patterns of the lexer are all anchored at the start of the
    input and are either a fixed sequence of character classes
    ([^[$][{]], [^:]) or one character class repeated at least once
    ([^[^:}]+]). *)

Inductive CharClass : Type :=
| OneOf (cs : list ascii)      (* [abc] *)
| NoneOf (cs : list ascii).    (* [^abc] *)

Inductive RegExp : Type :=
| Chars (cls : list CharClass) (* ^C1C2...Cn *)
| Many (cl : CharClass).       (* ^C+ *)

Definition charIn (c : ascii) (cs : list ascii) : bool :=
  existsb (Ascii.eqb c) cs.

Definition inClass (cl : CharClass) (c : ascii) : bool :=
  match cl with
  | OneOf cs => charIn c cs
  | NoneOf cs => negb (charIn c cs)
  end.

Fixpoint matchChars (cls : list CharClass) (s : string) : option string :=
  match cls with
  | [] => Some EmptyString
  | cl :: cls' =>
      match s with
      | String c s' =>
          if inClass cl c then
            match matchChars cls' s' with
            | Some m => Some (String c m)
            | None => None
            end
          else None
      | EmptyString => None
      end
  end.

(** The longest prefix whose characters all lie in the class. *)
Fixpoint matchMany (cl : CharClass) (s : string) : string :=
  match s with
  | String c s' => if inClass cl c then String c (matchMany cl s') else EmptyString
  | EmptyString => EmptyString
  end.

(** [s.match(re)]: [None] is JavaScript's [null], [Some m] is a match array
    whose element 0 is [m]. *)
Definition regexMatch (re : RegExp) (s : string) : option string :=
  match re with
  | Chars cls => matchChars cls s
  | Many cl =>
      match matchMany cl s with
      | EmptyString => None
      | m => Some m
      end
  end.

(** ** Lexer *)

Inductive LexerState : Type := NORMAL | FIELD.

Inductive TokenType : Type :=
| STRING
| ESCAPE_DOLLAR
| OPEN_BRACKET
| SYMBOL
| COLON
| CLOSE_BRACKET
| EOF.

Definition TokenType_eqb (a b : TokenType) : bool :=
  match a, b with
  | STRING, STRING | ESCAPE_DOLLAR, ESCAPE_DOLLAR | OPEN_BRACKET, OPEN_BRACKET
  | SYMBOL, SYMBOL | COLON, COLON | CLOSE_BRACKET, CLOSE_BRACKET | EOF, EOF => true
  | _, _ => false
  end.

Record Token : Type := { type : TokenType; text : string }.

Record LexMatcher : Type := {
  match_ : RegExp;
  ruleType : TokenType;
  newState : LexerState
}.

Definition NormalParseRules : list LexMatcher := [
  {| match_ := Chars [OneOf ["$"%char]; OneOf ["{"%char]];
     ruleType := OPEN_BRACKET; newState := FIELD |};
  {| match_ := Chars [OneOf ["\"%char]; OneOf ["$"%char]];
     ruleType := ESCAPE_DOLLAR; newState := NORMAL |};
  {| match_ := Many (NoneOf ["$"%char; "\"%char]);
     ruleType := STRING; newState := NORMAL |};
  {| match_ := Chars [OneOf ["$"%char]];
     ruleType := STRING; newState := NORMAL |};
  {| match_ := Chars [OneOf ["\"%char]];
     ruleType := STRING; newState := NORMAL |}
].

Definition FieldParseRules : list LexMatcher := [
  {| match_ := Many (NoneOf [":"%char; "}"%char]);
     ruleType := SYMBOL; newState := FIELD |};
  {| match_ := Chars [OneOf [":"%char]];
     ruleType := COLON; newState := FIELD |};
  {| match_ := Chars [OneOf ["}"%char]];
     ruleType := CLOSE_BRACKET; newState := NORMAL |}
].

Definition LexerStateRules (state : LexerState) : list LexMatcher :=
  match state with
  | NORMAL => NormalParseRules
  | FIELD => FieldParseRules
  end.

(** The inner [for (const rule of ...)] loop: the first rule that matches,
    with the matched text. [None] is [didMatch === false]. *)
Fixpoint firstMatch (rules : list LexMatcher) (currentInput : string)
  : option (LexMatcher * string) :=
  match rules with
  | [] => None
  | rule :: rules' =>
      match regexMatch (match_ rule) currentInput with
      | Some m => Some (rule, m)
      | None => firstMatch rules' currentInput
      end
  end.

(** The outer [while (currentInput.length !== 0)] loop. *)
Fixpoint lexLoop (fuel : nat) (result : list Token) (currentInput : string)
    (state : LexerState) : Outcome (list Token) :=
  if String.length currentInput =? 0 then Done result
  else
    match fuel with
    | 0 => OutOfFuel
    | S fuel' =>
        match firstMatch (LexerStateRules state) currentInput with
        | Some (rule, m) =>
            lexLoop fuel'
              (result ++ [{| type := ruleType rule; text := m |}])
              (slice (String.length m) currentInput)
              (newState rule)
        | None => Thrown "Unable to parse!"
        end
    end.

Definition lex (input : string) : Outcome (list Token) :=
  lexLoop (String.length input) [] input NORMAL.

(** ** Segments *)

Inductive Segment : Type :=
| TextSegment (text : string) (startColumn endColumn : nat)
| FieldSegment (namespace key : string) (startColumn endColumn : nat)
| ErrorSegment (text error : string) (startColumn endColumn : nat).

Definition startColumn (seg : Segment) : nat :=
  match seg with
  | TextSegment _ s _ | FieldSegment _ _ s _ | ErrorSegment _ _ s _ => s
  end.

Definition endColumn (seg : Segment) : nat :=
  match seg with
  | TextSegment _ _ e | FieldSegment _ _ _ e | ErrorSegment _ _ _ e => e
  end.

(** [segment.startColumn = i] *)
Definition setStartColumn (i : nat) (seg : Segment) : Segment :=
  match seg with
  | TextSegment t _ e => TextSegment t i e
  | FieldSegment ns k _ e => FieldSegment ns k i e
  | ErrorSegment t err _ e => ErrorSegment t err i e
  end.

(** [segment.endColumn = i] *)
Definition setEndColumn (i : nat) (seg : Segment) : Segment :=
  match seg with
  | TextSegment t s _ => TextSegment t s i
  | FieldSegment ns k s _ => FieldSegment ns k s i
  | ErrorSegment t err s _ => ErrorSegment t err s i
  end.

(** ** The token cursor

    The parser methods read [this._tokens] and read and write
    [this._tokenIndex]. A method is a function of the token array and the
    cursor that returns its value and the new cursor, or throws. *)

Definition Parser (A : Type) : Type := list Token -> nat -> Outcome (A * nat).

Definition ret {A} (a : A) : Parser A := fun _ idx => Done (a, idx).

Definition bind {A B} (m : Parser A) (k : A -> Parser B) : Parser B :=
  fun toks idx =>
    match m toks idx with
    | Done (a, idx') => k a toks idx'
    | Thrown msg => Thrown msg
    | OutOfFuel => OutOfFuel
    end.

Definition throw {A} (msg : string) : Parser A := fun _ _ => Thrown msg.

Definition outOfFuel {A} : Parser A := fun _ _ => OutOfFuel.

Definition getTokenIndex : Parser nat := fun _ idx => Done (idx, idx).

Definition setTokenIndex (i : nat) : Parser unit := fun _ _ => Done (tt, i).

Definition tokenCount : Parser nat := fun toks idx => Done (length toks, idx).

Declare Scope parser_scope.
Delimit Scope parser_scope with parser.
Notation "x <- m ;; k" := (bind m (fun x => k))
  (at level 100, m at next level, right associativity) : parser_scope.
Notation "m ;;; k" := (bind m (fun _ => k))
  (at level 100, right associativity) : parser_scope.
Local Open Scope parser_scope.

(** Reading a property of a value that may be [undefined]. *)
Definition deref {A} (o : option A) : Parser A :=
  match o with
  | Some a => ret a
  | None => throw "TypeError"
  end.

Definition _peekTokenType : Parser TokenType :=
  fun toks idx =>
    if length toks =? idx then Done (EOF, idx)
    else
      match toks !! idx with
      | Some tok => Done (type tok, idx)
      | None => Thrown "TypeError"
      end.

(** Returns [this._tokens[this._tokenIndex-1]] after the increment, which is
    [undefined] past the end of the array. *)
Definition _takeToken : Parser (option Token) :=
  fun toks idx => Done (toks !! idx, S idx).

(** [list.indexOf(ty) !== -1] *)
Definition includes (ty : TokenType) (l : list TokenType) : bool :=
  existsb (TokenType_eqb ty) l.

Definition textTokens : list TokenType := [STRING; ESCAPE_DOLLAR].

(** The [while] loop of [_processTextStateTokens], on the [text] and
    [endColumn] of [textSegment]. *)
Fixpoint textLoop (fuel : nat) (segText : string) (segEnd : nat)
  : Parser (string * nat) :=
  match fuel with
  | 0 => outOfFuel
  | S fuel' =>
      ty <- _peekTokenType ;;
      if includes ty textTokens then
        otoken <- _takeToken ;;
        token <- deref otoken ;;
        match type token with
        | STRING =>
            textLoop fuel' (segText +:+ text token)
                     (segEnd + String.length (text token))
        | ESCAPE_DOLLAR => textLoop fuel' (segText +:+ "$") (segEnd + 2)
        | _ => textLoop fuel' segText segEnd
        end
      else ret (segText, segEnd)
  end.

Definition _processTextStateTokens : Parser (list Segment) :=
  n <- tokenCount ;;
  r <- textLoop (S n) "" 0 ;;
  let '(segText, segEnd) := r in
  ret (if negb (String.length segText =? 0)
       then [TextSegment segText 0 segEnd] else []).

Definition fieldTokenTypeList : list TokenType :=
  [OPEN_BRACKET; SYMBOL; COLON; SYMBOL; CLOSE_BRACKET].

(** The [for] loop of [_checkFieldTokens]; the value is [pass]. *)
Fixpoint checkLoop (types : list TokenType) : Parser bool :=
  match types with
  | [] => ret true
  | ty :: types' =>
      peeked <- _peekTokenType ;;
      if negb (TokenType_eqb peeked ty) then ret false
      else _takeToken ;;; checkLoop types'
  end.

Definition _checkFieldTokens : Parser bool :=
  startIndex <- getTokenIndex ;;
  pass <- checkLoop fieldTokenTypeList ;;
  setTokenIndex startIndex ;;;
  ret pass.

Definition _processCompleteField : Parser Segment :=
  _takeToken ;;;
  t1 <- _takeToken ;; tok1 <- deref t1 ;;
  let namespace := text tok1 in
  _takeToken ;;;
  t2 <- _takeToken ;; tok2 <- deref t2 ;;
  let key := text tok2 in
  _takeToken ;;;
  ret (FieldSegment namespace key 0
         (2 + String.length namespace + 1 + String.length key + 1)).

Definition nonFieldTypes : list TokenType := [STRING; ESCAPE_DOLLAR; EOF].

(** The [while] loop of [_processBadField], on [badInput]. *)
Fixpoint badLoop (fuel : nat) (badInput : string) : Parser string :=
  match fuel with
  | 0 => outOfFuel
  | S fuel' =>
      ty <- _peekTokenType ;;
      if negb (includes ty nonFieldTypes) then
        otoken <- _takeToken ;;
        token <- deref otoken ;;
        badLoop fuel' (badInput +:+ text token)
      else ret badInput
  end.

Definition _processBadField : Parser Segment :=
  n <- tokenCount ;;
  badInput <- badLoop (S n) "" ;;
  ret (ErrorSegment badInput "" 0 (String.length badInput)).

Definition _processFieldStateTokens : Parser (list Segment) :=
  ty <- _peekTokenType ;;
  if TokenType_eqb ty EOF then ret []
  else
    ok <- _checkFieldTokens ;;
    if ok then seg <- _processCompleteField ;; ret [seg]
    else seg <- _processBadField ;; ret [seg].

(** The [while (this._peekTokenType() !== TokenType.EOF)] loop of [_parse]. *)
Fixpoint parseLoop (fuel : nat) (result : list Segment) : Parser (list Segment) :=
  match fuel with
  | 0 => outOfFuel
  | S fuel' =>
      ty <- _peekTokenType ;;
      if negb (TokenType_eqb ty EOF) then
        s1 <- _processTextStateTokens ;;
        s2 <- _processFieldStateTokens ;;
        parseLoop fuel' ((result ++ s1) ++ s2)
      else ret result
  end.

(** "Correct the start and end column info": on entry each segment's
    [endColumn] holds its width. *)
Fixpoint correctColumns (i : nat) (result : list Segment) : list Segment :=
  match result with
  | [] => []
  | segment :: rest =>
      let segment1 := setStartColumn i segment in
      let i' := i + endColumn segment1 in
      setEndColumn i' segment1 :: correctColumns i' rest
  end.

Definition _parse (template : string) : Outcome (list Segment) :=
  match lex template with
  | Done tokens =>
      match parseLoop (S (length tokens)) [] tokens 0 with
      | Done (result, _) => Done (correctColumns 0 result)
      | Thrown msg => Thrown msg
      | OutOfFuel => OutOfFuel
      end
  | Thrown msg => Thrown msg
  | OutOfFuel => OutOfFuel
  end.

(** ** Formatters and the template object *)

Module FieldFormatter.
(** [getErrorMessage] returns a message, or [None] for JavaScript's
    [null]. Formatters are supplied by the host; they are modelled as
    functions of the key. *)
Record t : Type := {
  formatHtml : string -> string;
  getErrorMessage : string -> option string
}.
End FieldFormatter.

(** [c.toLowerCase()] on an 8-bit character: the letters A-Z and the
    accented capitals 0xC0-0xDE (0xD7, the multiplication sign, apart). *)
Definition toLowerCaseChar (c : ascii) : ascii :=
  let n := nat_of_ascii c in
  if ((65 <=? n) && (n <=? 90)) || ((192 <=? n) && (n <=? 222) && negb (n =? 215))
  then ascii_of_nat (n + 32)
  else c.

Fixpoint toLowerCase (s : string) : string :=
  match s with
  | EmptyString => EmptyString
  | String c s' => String (toLowerCaseChar c) (toLowerCase s')
  end.

(** The object's fields. [_template] and [_segments] start as [null],
    which is [None]. (The fields [_tokens] and [_tokenIndex] are written and
    read only inside [_parse]; they are the token array and cursor of
    [Parser].) *)
Record TemplateString : Type := {
  _template : option string;
  _segments : option (list Segment);
  _formatterMap : gmap string FieldFormatter.t
}.

Definition newTemplateString : TemplateString :=
  {| _template := None; _segments := None; _formatterMap := ∅ |}.

Definition getTemplateString (this : TemplateString) : option string :=
  _template this.

(** Returns the object after the call and how the call ended: when [_parse]
    throws, [_template] has been assigned and [_segments] has not. *)
Definition setTemplateString (template : string) (this : TemplateString)
  : TemplateString * Outcome unit :=
  let this1 := {| _template := Some template;
                  _segments := _segments this;
                  _formatterMap := _formatterMap this |} in
  match _parse template with
  | Done segments =>
      ({| _template := _template this1;
          _segments := Some segments;
          _formatterMap := _formatterMap this1 |}, Done tt)
  | Thrown msg => (this1, Thrown msg)
  | OutOfFuel => (this1, OutOfFuel)
  end.

Definition addFormatter (namespace : string) (formatter : FieldFormatter.t)
    (this : TemplateString) : TemplateString :=
  {| _template := _template this;
     _segments := _segments this;
     _formatterMap := <[toLowerCase namespace := formatter]> (_formatterMap this) |}.

(** ** Rendering

    A render returns the HTML and the calls it made to formatters, in
    order. A call is recorded with the (lower-cased) map key under which the
    formatter was found. *)

Inductive Call : Type :=
| FormatHtmlCall (namespace key : string)
| GetErrorMessageCall (namespace key : string).

(** [strings.join("")] *)
Definition join (strings : list string) : string := String.concat "" strings.

Definition spanOpen (class : string) : string :=
  "<span class=" +:+ dquote +:+ class +:+ dquote +:+ ">".

Definition spanClose : string := "</span>".

Section Rendering.

(** [he.encode], the HTML escaping function of the [he] package. *)
Variable he_encode : string -> string.

(** The callback of [formatHtml]. *)
Definition formatHtmlSegment (formatterMap : gmap string FieldFormatter.t)
    (segment : Segment) : string * list Call :=
  match segment with
  | TextSegment text _ _ => (he_encode text, [])
  | FieldSegment ns key _ _ =>
      let namespace := toLowerCase ns in
      match formatterMap !! namespace with
      | None => ("", [])
      | Some formatter =>
          (FieldFormatter.formatHtml formatter key, [FormatHtmlCall namespace key])
      end
  | ErrorSegment _ _ _ _ => ("", [])
  end.

(** The callback of [formatDiagnosticHtml]. *)
Definition formatDiagnosticHtmlSegment (formatterMap : gmap string FieldFormatter.t)
    (segment : Segment) : string * list Call :=
  match segment with
  | TextSegment text _ _ =>
      (spanOpen "segment_text" +:+ he_encode text +:+ spanClose, [])
  | FieldSegment ns key _ _ =>
      let namespace := toLowerCase ns in
      match formatterMap !! namespace with
      | None =>
          (spanOpen "segment_error" +:+ "Unknown '" +:+ ns +:+ "'" +:+ spanClose, [])
      | Some formatter =>
          match FieldFormatter.getErrorMessage formatter key with
          | None =>
              (spanOpen "segment_field" +:+ FieldFormatter.formatHtml formatter key
                 +:+ spanClose,
               [GetErrorMessageCall namespace key; FormatHtmlCall namespace key])
          | Some errorMsg =>
              (spanOpen "segment_error" +:+ errorMsg +:+ spanClose,
               [GetErrorMessageCall namespace key])
          end
      end
  | ErrorSegment text _ _ _ =>
      (spanOpen "segment_error" +:+ "Unknown '" +:+ text +:+ "'" +:+ spanClose, [])
  end.

(** [this._segments.map(callback).join("")]; [map] on [null] throws. *)
Definition renderWith (callback : Segment -> string * list Call)
    (this : TemplateString) : Outcome (string * list Call) :=
  match _segments this with
  | None => Thrown "TypeError"
  | Some segments =>
      let rendered := map callback segments in
      Done (join (map fst rendered), concat (map snd rendered))
  end.

Definition formatHtml (this : TemplateString) : Outcome (string * list Call) :=
  renderWith (formatHtmlSegment (_formatterMap this)) this.

Definition formatDiagnosticHtml (this : TemplateString) : Outcome (string * list Call) :=
  renderWith (formatDiagnosticHtmlSegment (_formatterMap this)) this.

End Rendering.

(** * Auxiliary definitions

    Notions used to state and prove the properties below; none of them is
    part of the program. *)

(** ** Strings *)

(** [s] starts with [p]. *)
Definition startsWith (p : string) (s : string) : Prop :=
  exists rest, s = p +:+ rest.

(** The character [c] occurs in [s]. *)
Fixpoint occurs (c : ascii) (s : string) : bool :=
  match s with
  | EmptyString => false
  | String d s' => Ascii.eqb d c || occurs c s'
  end.

(** Reading source text as literal text: scanning from the left, each
    [\$] stands for one [$]; every other character stands for itself. *)
Fixpoint unescape (s : string) : string :=
  match s with
  | EmptyString => EmptyString
  | String c s' =>
      match s' with
      | String d s'' =>
          if Ascii.eqb c "\" && Ascii.eqb d "$"
          then String "$" (unescape s'')
          else String c (unescape s')
      | EmptyString => String c EmptyString
      end
  end.

(** ** The lexer as a relation *)

(** [lexed state input tokens]: from [state], the loop of [lex] turns the
    remaining [input] into [tokens]. *)
Inductive lexed : LexerState -> string -> list Token -> Prop :=
| lexed_end state : lexed state "" []
| lexed_rule state input rule m tokens :
    input <> "" ->
    firstMatch (LexerStateRules state) input = Some (rule, m) ->
    lexed (newState rule) (slice (String.length m) input) tokens ->
    lexed state input ({| type := ruleType rule; text := m |} :: tokens).

(** Tokens that can follow one another in a lexing. *)
Definition Lexed (l : list Token) : Prop :=
  exists state input, lexed state input l.

(** The character classes of the two run rules, [[^$\\]] and [[^:}]]. *)
Definition textClass : CharClass := NoneOf ["$"%char; "\"%char].
Definition symbolClass : CharClass := NoneOf [":"%char; "}"%char].

(** The text of a token is fixed by its type, or is a non-empty run. No
    token has the type EOF. *)
Definition tokenOK (tok : Token) : Prop :=
  match type tok with
  | STRING => text tok <> ""
  | ESCAPE_DOLLAR => text tok = "\$"
  | OPEN_BRACKET => text tok = "${"
  | SYMBOL => text tok <> ""
  | COLON => text tok = ":"
  | CLOSE_BRACKET => text tok = "}"
  | EOF => False
  end.

Definition symbolOrColon (tok : Token) : Prop :=
  type tok = SYMBOL \/ type tok = COLON.

(** The source text of a token sequence. *)
Definition texts (l : list Token) : string := join (map text l).

(** ** The parser on the tokens that remain *)

(** What [_peekTokenType] returns when [l] is what remains. *)
Definition headType (l : list Token) : TokenType :=
  match l with
  | [] => EOF
  | tok :: _ => type tok
  end.

(** The tokens on which the loop of [_processTextStateTokens] goes on, and
    those on which the loop of [_processBadField] goes on. *)
Definition isText (tok : Token) : bool := includes (type tok) textTokens.

Definition isBad (tok : Token) : bool := negb (includes (type tok) nonFieldTypes).

(** Longest prefix of tokens that satisfy [p]. *)
Fixpoint run (p : Token -> bool) (l : list Token) : list Token :=
  match l with
  | tok :: l' => if p tok then tok :: run p l' else []
  | [] => []
  end.

(** What a text token adds to the text of its segment, and to its width. *)
Definition decoded (tok : Token) : string :=
  match type tok with
  | STRING => text tok
  | ESCAPE_DOLLAR => "$"
  | _ => ""
  end.

Definition width (tok : Token) : nat :=
  match type tok with
  | STRING => String.length (text tok)
  | ESCAPE_DOLLAR => 2
  | _ => 0
  end.

(** The text phase on the remaining tokens: the segments it emits and the
    number of tokens it takes. *)
Definition textPhase (l : list Token) : list Segment * nat :=
  let r := run isText l in
  let segText := join (map decoded r) in
  (if negb (String.length segText =? 0)
   then [TextSegment segText 0 (sum_list (map width r))] else [],
   length r).

(** The remaining tokens start with tokens of these types. *)
Fixpoint typesMatch (types : list TokenType) (l : list Token) : bool :=
  match types with
  | [] => true
  | ty :: types' =>
      match l with
      | tok :: l' => TokenType_eqb (type tok) ty && typesMatch types' l'
      | [] => false
      end
  end.

(** The field phase on the remaining tokens: the segments it emits and the
    number of tokens it takes. *)
Definition fieldPhase (l : list Token) : list Segment * nat :=
  if TokenType_eqb (headType l) EOF then ([], 0)
  else if typesMatch fieldTokenTypeList l then
    match l with
    | _ :: tok1 :: _ :: tok2 :: _ =>
        ([FieldSegment (text tok1) (text tok2) 0
            (2 + String.length (text tok1) + 1 + String.length (text tok2) + 1)], 5)
    | _ => ([], 0)
    end
  else
    let r := run isBad l in
    ([ErrorSegment (texts r) "" 0 (String.length (texts r))], length r).

(** [parsed l segs]: the loop of [_parse], started with [l] remaining, adds
    [segs] to its result. *)
Inductive parsed : list Token -> list Segment -> Prop :=
| parsed_end l : headType l = EOF -> parsed l []
| parsed_iter l l1 l2 segs :
    headType l <> EOF ->
    l1 = drop (snd (textPhase l)) l ->
    l2 = drop (snd (fieldPhase l1)) l1 ->
    parsed l2 segs ->
    parsed l (fst (textPhase l) ++ fst (fieldPhase l1) ++ segs).

(** The segments of a token list, computed: [parsed] as a function. *)
Fixpoint segmentsOf (fuel : nat) (l : list Token) : list Segment :=
  match fuel with
  | 0 => []
  | S fuel' =>
      if TokenType_eqb (headType l) EOF then []
      else
        let l1 := drop (snd (textPhase l)) l in
        let l2 := drop (snd (fieldPhase l1)) l1 in
        fst (textPhase l) ++ fst (fieldPhase l1) ++ segmentsOf fuel' l2
  end.

(** ** Segments and source text *)

(** The source text [chunk] reads as the segment [seg]. *)
Definition chunkOf (seg : Segment) (chunk : string) : Prop :=
  match seg with
  | TextSegment t _ _ => t = unescape chunk
  | FieldSegment ns key _ _ => chunk = "${" +:+ ns +:+ ":" +:+ key +:+ "}"
  | ErrorSegment t _ _ _ => chunk = t
  end.

(** Before the columns are corrected, [endColumn] holds the width. *)
Definition rawChunk (seg : Segment) (chunk : string) : Prop :=
  chunkOf seg chunk /\ endColumn seg = String.length chunk.

(** The segment reads the characters of the template between its columns,
    which lie within the template. *)
Definition located (template : string) (seg : Segment) : Prop :=
  let source :=
    substring (startColumn seg) (endColumn seg - startColumn seg) template in
  chunkOf seg source /\ String.length source = endColumn seg - startColumn seg.

(** The column ranges of the segments follow one another from [from] to
    [to]: each starts where the one before ended, and none runs backwards. *)
Fixpoint covers (from : nat) (segs : list Segment) (to : nat) : Prop :=
  match segs with
  | [] => from = to
  | seg :: rest =>
      startColumn seg = from /\ startColumn seg <= endColumn seg
      /\ covers (endColumn seg) rest to
  end.

Definition span (seg : Segment) : nat := endColumn seg - startColumn seg.

(** ** Renders *)

(** [s.includes(sub)] as a proposition. *)
Definition contains (s sub : string) : Prop :=
  exists before after, s = before +:+ sub +:+ after.

(** The object with other segments; the template and the formatters stay. *)
Definition withSegments (segments : list Segment) (this : TemplateString)
  : TemplateString :=
  {| _template := _template this;
     _segments := Some segments;
     _formatterMap := _formatterMap this |}.

(** Number of elements that satisfy [p]. *)
Definition countIf {A} (p : A -> bool) (l : list A) : nat :=
  length (List.filter p l).


Definition isGetErrorMessageCall (c : Call) : bool :=
  match c with
  | GetErrorMessageCall _ _ => true
  | FormatHtmlCall _ _ => false
  end.


(** An escaping function and a formatter for the instances: the first
    leaves the text as it is; the second shows the key in bold and reports
    an error for the key [bar]. *)
Definition noEscape (s : string) : string := s.

Definition boldFormatter : FieldFormatter.t :=
  {| FieldFormatter.formatHtml := fun key => "<b>" +:+ key +:+ "</b>";
     FieldFormatter.getErrorMessage :=
       fun key => if String.eqb key "bar" then Some "no such key" else None |}.

(** ** More on tokens *)

(** The text of a token, by its type, as the rules produce it. *)
Definition tokenShape (tok : Token) : Prop :=
  match type tok with
  | STRING =>
      text tok = "$" \/ text tok = "\"
      \/ (text tok <> "" /\ occurs "$" (text tok) = false
          /\ occurs "\" (text tok) = false)
  | ESCAPE_DOLLAR => text tok = "\$"
  | OPEN_BRACKET => text tok = "${"
  | SYMBOL =>
      text tok <> "" /\ occurs ":" (text tok) = false
      /\ occurs "}" (text tok) = false
  | COLON => text tok = ":"
  | CLOSE_BRACKET => text tok = "}"
  | EOF => False
  end.

(** The types of the tokens that the rules of a state produce. *)
Definition producedIn (state : LexerState) (ty : TokenType) : bool :=
  match state, ty with
  | NORMAL, (STRING | ESCAPE_DOLLAR | OPEN_BRACKET) => true
  | FIELD, (SYMBOL | COLON | CLOSE_BRACKET) => true
  | _, _ => false
  end.

(** The state in which the lexer is after a token of this type. *)
Definition stateAfter (ty : TokenType) : LexerState :=
  match ty with
  | OPEN_BRACKET | SYMBOL | COLON => FIELD
  | _ => NORMAL
  end.

(** A token of type [b] may come right after one of type [a]: [b] is
    produced in the state after [a], and a SYMBOL does not follow a
    SYMBOL. *)
Definition mayFollow (a b : TokenType) : bool :=
  producedIn (stateAfter a) b
  && negb (TokenType_eqb a SYMBOL && TokenType_eqb b SYMBOL).

Fixpoint chained (l : list Token) : Prop :=
  match l with
  | a :: l' =>
      match l' with
      | b :: _ => mayFollow (type a) (type b) = true /\ chained l'
      | [] => True
      end
  | [] => True
  end.

(** ** More on segments *)

(** Tokens that the lexer produces from the NORMAL state. *)
Definition NormalLexed (l : list Token) : Prop :=
  exists input, lexed NORMAL input l.

(** What the segments of a parse look like: a Text segment is not empty; the
    namespace and the key of a Field segment are not empty and hold no [:]
    and no [}]; the text of an Error segment starts with [${] and its error
    is empty. *)
Definition segmentOK (seg : Segment) : Prop :=
  match seg with
  | TextSegment t _ _ => t <> ""
  | FieldSegment ns key _ _ =>
      (ns <> "" /\ occurs ":" ns = false /\ occurs "}" ns = false)
      /\ (key <> "" /\ occurs ":" key = false /\ occurs "}" key = false)
  | ErrorSegment t err _ _ => startsWith "${" t /\ err = ""
  end.

Definition isTextSegment (seg : Segment) : bool :=
  match seg with
  | TextSegment _ _ _ => true
  | _ => false
  end.

Definition isErrorSegment (seg : Segment) : bool :=
  match seg with
  | ErrorSegment _ _ _ _ => true
  | _ => false
  end.

(** [b] may come right after [a]: not a Text segment after a Text segment,
    and only a Text segment after an Error segment. *)
Definition link (a b : Segment) : Prop :=
  (isTextSegment a = true -> isTextSegment b = false)
  /\ (isErrorSegment a = true -> isTextSegment b = true).

Fixpoint alternates (segs : list Segment) : Prop :=
  match segs with
  | a :: segs' =>
      match segs' with
      | b :: _ => link a b /\ alternates segs'
      | [] => True
      end
  | [] => True
  end.

(** The span of a segment, from what it holds. *)
Definition spanOK (seg : Segment) : Prop :=
  match seg with
  | TextSegment t s e =>
      s + String.length t <= e /\ e <= s + 2 * String.length t
  | FieldSegment ns key s e => e = s + String.length ns + String.length key + 4
  | ErrorSegment t _ s e => e = s + String.length t
  end.

(** ** More on the template object *)

(** The objects that a program can have: a new object, after any calls of
    [setTemplateString] and [addFormatter]. *)
Inductive reachable : TemplateString -> Prop :=
| reachable_new : reachable newTemplateString
| reachable_set template this :
    reachable this -> reachable (fst (setTemplateString template this))
| reachable_add namespace formatter this :
    reachable this -> reachable (addFormatter namespace formatter this).

(** The segments are those of the template, or neither has been set. *)
Definition segmentsInSync (this : TemplateString) : Prop :=
  match _template this, _segments this with
  | None, None => True
  | Some template, Some segments => _parse template = Done segments
  | _, _ => False
  end.

(** A Field segment whose namespace has a formatter. *)
Definition registeredField (formatterMap : gmap string FieldFormatter.t)
    (seg : Segment) : bool :=
  match seg with
  | FieldSegment ns _ _ _ =>
      match formatterMap !! toLowerCase ns with
      | Some _ => true
      | None => false
      end
  | _ => false
  end.

(** * Facts about strings *)

#[local] Arguments String.append !s1 s2 : simpl nomatch.

Lemma append_nil_r (s : string) : s +:+ "" = s.
Proof. induction s as [|c s IH]; cbn; [reflexivity | by rewrite IH]. Qed.

Lemma append_cons (c : ascii) (s t : string) : String c s +:+ t = String c (s +:+ t).
Proof. reflexivity. Qed.

Lemma append_assoc (s t u : string) : (s +:+ t) +:+ u = s +:+ t +:+ u.
Proof. induction s as [|c s IH]; cbn; [reflexivity | by rewrite IH]. Qed.

Lemma length_append (s t : string) :
  String.length (s +:+ t) = String.length s + String.length t.
Proof. induction s as [|c s IH]; cbn; [reflexivity | by rewrite IH]. Qed.

Lemma slice_append (s t : string) : slice (String.length s) (s +:+ t) = t.
Proof. induction s as [|c s IH]; cbn; [by destruct t | exact IH]. Qed.

Lemma slice_0 (s : string) : slice 0 s = s.
Proof. by destruct s. Qed.

Lemma length_zero_iff (s : string) : String.length s = 0 <-> s = "".
Proof. destruct s; cbn; split; intros; congruence. Qed.

Lemma append_inv_head (s t u : string) : s +:+ t = s +:+ u -> t = u.
Proof. induction s as [|c s IH]; cbn; [done | intros [= H]; auto]. Qed.

(** * The lexer *)

(** ** Regular expression matches are non-empty prefixes of the input *)

Lemma matchChars_prefix (cls : list CharClass) (s m : string) :
  matchChars cls s = Some m ->
  s = m +:+ slice (String.length m) s /\ String.length m = length cls.
Proof.
  revert s m. induction cls as [|cl cls IH]; intros s m; cbn.
  - intros [= <-]. by rewrite slice_0.
  - destruct s as [|c s]; [done|].
    destruct (inClass cl c); [|done].
    destruct (matchChars cls s) as [m'|] eqn:E; [|done].
    intros [= <-]. destruct (IH _ _ E) as [H1 H2]. cbn.
    split; [by rewrite <- H1 | by rewrite H2].
Qed.

Lemma matchMany_prefix (cl : CharClass) (s : string) :
  s = matchMany cl s +:+ slice (String.length (matchMany cl s)) s.
Proof.
  induction s as [|c s IH]; cbn; [done|].
  destruct (inClass cl c); cbn; [by rewrite <- IH | done].
Qed.

Lemma regexMatch_prefix (re : RegExp) (s m : string) :
  regexMatch re s = Some m -> s = m +:+ slice (String.length m) s.
Proof.
  destruct re as [cls|cl]; cbn.
  - intros H. by apply matchChars_prefix in H as [H _].
  - pose proof (matchMany_prefix cl s) as H.
    destruct (matchMany cl s); [done|]. by intros [= <-].
Qed.

Lemma firstMatch_prefix (rules : list LexMatcher) (s : string) rule m :
  firstMatch rules s = Some (rule, m) ->
  s = m +:+ slice (String.length m) s /\ regexMatch (match_ rule) s = Some m
  /\ rule ∈ rules.
Proof.
  induction rules as [|r rules IH]; cbn; [done|].
  destruct (regexMatch (match_ r) s) as [m'|] eqn:E.
  - intros [= <- <-]. split; [by apply regexMatch_prefix in E|].
    split; [done | by left].
  - intros H. destruct (IH H) as (H1 & H2 & H3). repeat split; try done. by right.
Qed.

Lemma lexer_match_nonempty (state : LexerState) (s : string) rule m :
  firstMatch (LexerStateRules state) s = Some (rule, m) -> m <> "".
Proof.
  intros H. apply firstMatch_prefix in H as (_ & H & Hin).
  assert (Hcases : (exists cl, match_ rule = Many cl) \/
                   (exists cl cls, match_ rule = Chars (cl :: cls))).
  { destruct state; cbn in Hin;
      repeat (apply elem_of_cons in Hin as [-> | Hin]); cbn; eauto;
      by apply elem_of_nil in Hin. }
  destruct Hcases as [[cl Hr] | (cl & cls & Hr)]; rewrite Hr in H; cbn in H.
  - destruct (matchMany cl s); [done|]. by intros ->; simplify_eq.
  - destruct s as [|c s]; [done|]. destruct (inClass cl c); [|done].
    destruct (matchChars cls s); [|done]. by intros ->; simplify_eq.
Qed.

(** ** Every non-empty input is matched by a rule of the current state *)

Lemma charIn_1 (c d : ascii) : charIn c [d] = Ascii.eqb c d.
Proof. unfold charIn; cbn. by rewrite orb_false_r. Qed.

Lemma normal_rules_exhaustive (c : ascii) (s : string) :
  exists rule m, firstMatch NormalParseRules (String c s) = Some (rule, m).
Proof.
  unfold NormalParseRules, firstMatch, regexMatch, match_.
  unfold matchChars, matchMany; fold matchMany. unfold inClass.
  rewrite !charIn_1. unfold charIn, existsb.
  destruct (Ascii.eqb c "$") eqn:Hd, (Ascii.eqb c "\") eqn:Hb;
    cbn [negb orb andb]; repeat case_match; eauto.
Qed.

Lemma field_rules_exhaustive (c : ascii) (s : string) :
  exists rule m, firstMatch FieldParseRules (String c s) = Some (rule, m).
Proof.
  unfold FieldParseRules, firstMatch, regexMatch, match_.
  unfold matchChars, matchMany; fold matchMany. unfold inClass.
  rewrite !charIn_1. unfold charIn, existsb.
  destruct (Ascii.eqb c ":") eqn:Hd, (Ascii.eqb c "}") eqn:Hb;
    cbn [negb orb andb]; repeat case_match; eauto.
Qed.

Lemma rules_exhaustive (state : LexerState) (s : string) :
  s <> "" -> exists rule m, firstMatch (LexerStateRules state) s = Some (rule, m).
Proof.
  destruct s as [|c s]; [done|]. intros _.
  destruct state; [apply normal_rules_exhaustive | apply field_rules_exhaustive].
Qed.

(** ** The loop of [lex] returns, and returns what [lexed] says *)

Lemma slice_shorter (state : LexerState) (s : string) rule m :
  firstMatch (LexerStateRules state) s = Some (rule, m) ->
  String.length (slice (String.length m) s) < String.length s.
Proof.
  intros H. pose proof (lexer_match_nonempty _ _ _ _ H) as Hne.
  apply firstMatch_prefix in H as (Hs & _).
  rewrite Hs at 2. rewrite length_append.
  destruct m; [done | cbn; lia].
Qed.

Lemma lexLoop_lexed (fuel : nat) (result : list Token) (input : string)
    (state : LexerState) :
  String.length input <= fuel ->
  exists tokens, lexLoop fuel result input state = Done (result ++ tokens)
                 /\ lexed state input tokens.
Proof.
  revert result input state.
  induction fuel as [|fuel IH]; intros result input state Hlen.
  - assert (input = "") as -> by (apply length_zero_iff; lia).
    exists []. rewrite app_nil_r. split; [done | constructor].
  - cbn. destruct (String.length input =? 0) eqn:E.
    + apply Nat.eqb_eq, length_zero_iff in E as ->.
      exists []. rewrite app_nil_r. split; [done | constructor].
    + apply Nat.eqb_neq in E.
      assert (Hne : input <> "") by (intros ->; done).
      destruct (rules_exhaustive state input Hne) as (rule & m & Hm).
      rewrite Hm.
      pose proof (slice_shorter _ _ _ _ Hm) as Hlt.
      destruct (IH (result ++ [{| type := ruleType rule; text := m |}])
                  (slice (String.length m) input) (newState rule)) as (toks & Hl & Hx);
        [lia|].
      exists ({| type := ruleType rule; text := m |} :: toks).
      rewrite Hl, <- app_assoc. split; [done | by econstructor].
Qed.

Lemma lexed_deterministic state input toks1 toks2 :
  lexed state input toks1 -> lexed state input toks2 -> toks1 = toks2.
Proof.
  intros H1. revert toks2.
  induction H1 as [|state input rule m tokens Hne Hm _ IH]; intros toks2 H2.
  - by inversion H2.
  - inversion H2 as [|? ? rule' m' tokens' _ Hm' Hrest]; subst; [done|].
    rewrite Hm in Hm'. injection Hm' as <- <-. f_equal. by apply IH.
Qed.

Lemma lex_lexed (input : string) (tokens : list Token) :
  lex input = Done tokens <-> lexed NORMAL input tokens.
Proof.
  destruct (lexLoop_lexed (String.length input) [] input NORMAL) as (toks & Hl & Hx);
    [done|].
  unfold lex. rewrite Hl. cbn. split.
  - by intros [= <-].
  - intros H. f_equal. eapply lexed_deterministic; eauto.
Qed.

(** C2. [lex] is total: whatever the input, the loop ends with a token
    sequence; the [throw "Unable to parse!"] branch is never taken, because
    in both lexer states every non-empty remaining input is matched by one of
    the state's rules. *)
Theorem lex_total (input : string) :
  (exists tokens, lex input = Done tokens)
  /\ (forall state rest, rest <> "" -> firstMatch (LexerStateRules state) rest <> None)
  /\ (forall fuel result rest state msg, lexLoop fuel result rest state <> Thrown msg).
Proof.
  split; [|split].
  - destruct (lexLoop_lexed (String.length input) [] input NORMAL) as (toks & Hl & _);
      [done|]. by exists toks.
  - intros state rest Hne. destruct (rules_exhaustive state rest Hne) as (r & m & ->).
    done.
  - induction fuel as [|fuel IH]; intros result rest state msg; cbn.
    + by destruct (String.length rest =? 0).
    + destruct (String.length rest =? 0) eqn:E; [done|].
      assert (Hne : rest <> "") by (intros ->; done).
      destruct (rules_exhaustive state rest Hne) as (r & m & ->). apply IH.
Qed.

Lemma lex_total_witness :
  (exists tokens, lex "a \$ ${b:c} $" = Done tokens)
  /\ firstMatch (LexerStateRules FIELD) "}" <> None.
Proof.
  split.
  - apply (proj1 (lex_total "a \$ ${b:c} $")).
  - apply (proj1 (proj2 (lex_total "")) FIELD "}"). discriminate.
Defined.

(** ** Which rule fires *)

Lemma normal_step_cases (input : string) rule m :
  firstMatch NormalParseRules input = Some (rule, m) ->
  (ruleType rule = OPEN_BRACKET /\ newState rule = FIELD /\ m = "${")
  \/ (ruleType rule = ESCAPE_DOLLAR /\ newState rule = NORMAL /\ m = "\$")
  \/ (ruleType rule = STRING /\ newState rule = NORMAL
      /\ m = matchMany textClass input /\ m <> "")
  \/ (ruleType rule = STRING /\ newState rule = NORMAL /\ m = "$"
      /\ ~ startsWith "${" input)
  \/ (ruleType rule = STRING /\ newState rule = NORMAL /\ m = "\"
      /\ ~ startsWith "\$" input).
Proof.
  destruct input as [|c s]; [done|].
  unfold NormalParseRules, firstMatch, regexMatch, match_, textClass.
  unfold matchChars, matchMany; fold matchMany. unfold inClass.
  rewrite !charIn_1. unfold charIn, existsb.
  destruct (Ascii.eqb_spec c "$") as [Hd|Hd], (Ascii.eqb_spec c "\") as [Hb|Hb];
    try (subst c; discriminate Hb); try subst c; cbn [negb orb andb].
  - destruct s as [|c' s]; [|destruct (Ascii.eqb_spec c' "{") as [->|Hc]; cbn].
    + intros [= <- <-]. do 3 right; left. repeat split. by intros [r [=]].
    + intros [= <- <-]. by left.
    + intros [= <- <-]. do 3 right; left. repeat split.
      intros [r Hr]. cbn in Hr. congruence.
  - destruct s as [|c' s]; [|destruct (Ascii.eqb_spec c' "$") as [->|Hc]; cbn].
    + intros [= <- <-]. do 4 right. repeat split. by intros [r [=]].
    + intros [= <- <-]. right; by left.
    + intros [= <- <-]. do 4 right. repeat split.
      intros [r Hr]. cbn in Hr. congruence.
  - intros [= <- <-]. do 2 right; left. by repeat split.
Qed.

Lemma field_step_cases (input : string) rule m :
  firstMatch FieldParseRules input = Some (rule, m) ->
  (ruleType rule = SYMBOL /\ newState rule = FIELD
   /\ m = matchMany symbolClass input /\ m <> "")
  \/ (ruleType rule = COLON /\ newState rule = FIELD /\ m = ":"
      /\ startsWith ":" input)
  \/ (ruleType rule = CLOSE_BRACKET /\ newState rule = NORMAL /\ m = "}"
      /\ startsWith "}" input).
Proof.
  destruct input as [|c s]; [done|].
  unfold FieldParseRules, firstMatch, regexMatch, match_, symbolClass.
  unfold matchChars, matchMany; fold matchMany. unfold inClass.
  rewrite !charIn_1. unfold charIn, existsb.
  destruct (Ascii.eqb_spec c ":") as [Hd|Hd], (Ascii.eqb_spec c "}") as [Hb|Hb];
    try (subst c; discriminate Hb); try subst c; cbn [negb orb andb].
  - intros [= <- <-]. right; left. repeat split. by exists s.
  - intros [= <- <-]. do 2 right. repeat split. by exists s.
  - intros [= <- <-]. left. by repeat split.
Qed.

(** * The cursor and the two phases, in terms of the tokens that remain *)

Lemma join_fold (l : list string) : join l = foldr String.append "" l.
Proof.
  unfold join. induction l as [|s l IH]; [done|].
  cbn [String.concat foldr]. destruct l as [|s' l].
  - cbn. by rewrite append_nil_r.
  - rewrite IH. reflexivity.
Qed.

Lemma join_nil : join [] = "".
Proof. reflexivity. Qed.

Lemma join_cons (s : string) (l : list string) : join (s :: l) = s +:+ join l.
Proof. by rewrite !join_fold. Qed.

Lemma join_app (l1 l2 : list string) : join (l1 ++ l2) = join l1 +:+ join l2.
Proof.
  induction l1 as [|s l1 IH]; [done|].
  cbn [app]. by rewrite !join_cons, IH, append_assoc.
Qed.

Lemma drop_cons_inv (toks : list Token) (idx : nat) tok rest :
  drop idx toks = tok :: rest ->
  toks !! idx = Some tok /\ drop (S idx) toks = rest /\ idx < length toks.
Proof.
  intros H.
  assert (Hl : toks !! idx = Some tok).
  { rewrite <- (Nat.add_0_r idx), <- lookup_drop, H. done. }
  split; [done|]. split.
  - apply drop_S in Hl. rewrite Hl in H. by injection H.
  - by apply lookup_lt_Some in Hl.
Qed.

Lemma drop_nil_inv (toks : list Token) (idx : nat) :
  idx <= length toks -> drop idx toks = [] -> idx = length toks.
Proof.
  intros Hle H. apply (f_equal length) in H. rewrite length_drop in H. cbn in H. lia.
Qed.

Lemma peek_spec (toks : list Token) (idx : nat) :
  idx <= length toks ->
  _peekTokenType toks idx = Done (headType (drop idx toks), idx).
Proof.
  intros Hle. unfold _peekTokenType.
  destruct (drop idx toks) as [|tok rest] eqn:E.
  - apply drop_nil_inv in E as <-; [|done]. by rewrite Nat.eqb_refl.
  - apply drop_cons_inv in E as (Hl & _ & Hlt).
    destruct (Nat.eqb_spec (length toks) idx); [lia|]. by rewrite Hl.
Qed.

Lemma textLoop_spec (fuel : nat) (toks : list Token) :
  forall (idx : nat) (t : string) (w : nat),
    idx <= length toks ->
    length (drop idx toks) < fuel ->
    let r := run isText (drop idx toks) in
    textLoop fuel t w toks idx =
    Done ((t +:+ join (map decoded r), w + sum_list (map width r)), idx + length r).
Proof.
  induction fuel as [|fuel IH]; intros idx t w Hle Hfuel; [lia|].
  cbn [textLoop]. unfold bind at 1. rewrite peek_spec by done.
  destruct (drop idx toks) as [|tok rest] eqn:E; cbn [headType run].
  - cbn. by rewrite append_nil_r, !Nat.add_0_r.
  - apply drop_cons_inv in E as (Hl & Hrest & Hlt).
    replace (includes (type tok) textTokens) with (isText tok) by done.
    destruct (isText tok) eqn:Hin; unfold isText in Hin.
    + unfold bind, _takeToken. rewrite Hl. cbn [deref ret].
      cbn [length] in Hfuel.
      assert (Hstep : forall t' w',
        textLoop fuel t' w' toks (S idx) =
        Done ((t' +:+ join (map decoded (run isText rest)),
               w' + sum_list (map width (run isText rest))),
              S idx + length (run isText rest))).
      { intros t' w'. rewrite <- Hrest. apply IH; [lia|]. rewrite Hrest. lia. }
      cbn [map length]. rewrite join_cons.
      change (sum_list (width tok :: ?l)) with (width tok + sum_list l).
      remember (run isText rest) as r eqn:Er.
      unfold decoded at 1, width at 1.
      destruct (type tok); try discriminate Hin; rewrite Hstep;
        rewrite append_assoc; apply (f_equal Done);
        (apply (f_equal2 pair); [apply (f_equal2 pair)|]); first [done | lia].
    + cbn. by rewrite append_nil_r, !Nat.add_0_r.
Qed.

Lemma badLoop_spec (fuel : nat) (toks : list Token) :
  forall (idx : nat) (t : string),
    idx <= length toks ->
    length (drop idx toks) < fuel ->
    let r := run isBad (drop idx toks) in
    badLoop fuel t toks idx = Done (t +:+ texts r, idx + length r).
Proof.
  induction fuel as [|fuel IH]; intros idx t Hle Hfuel; [lia|].
  cbn [badLoop]. unfold bind at 1. rewrite peek_spec by done.
  destruct (drop idx toks) as [|tok rest] eqn:E; cbn [headType run].
  - cbn. by rewrite append_nil_r, !Nat.add_0_r.
  - apply drop_cons_inv in E as (Hl & Hrest & Hlt).
    replace (negb (includes (type tok) nonFieldTypes)) with (isBad tok) by done.
    destruct (isBad tok) eqn:Hin; unfold isBad in Hin.
    + unfold bind, _takeToken. rewrite Hl. cbn [deref ret].
      cbn [length] in Hfuel.
      rewrite IH; [|lia|rewrite Hrest; lia]. rewrite Hrest.
      unfold texts. cbn [map length]. rewrite join_cons, append_assoc.
      apply (f_equal Done), (f_equal2 pair); [done | lia].
    + cbn. by rewrite append_nil_r, !Nat.add_0_r.
Qed.

Lemma TokenType_eqb_eq (a b : TokenType) : TokenType_eqb a b = true <-> a = b.
Proof. destruct a, b; cbn; split; intros; congruence. Qed.

Lemma length_run_le (p : Token -> bool) (l : list Token) : length (run p l) <= length l.
Proof. induction l as [|tok l IH]; cbn; [lia|]. destruct (p tok); cbn; lia. Qed.

Lemma textState_spec (toks : list Token) (idx : nat) :
  idx <= length toks ->
  _processTextStateTokens toks idx =
  Done (fst (textPhase (drop idx toks)), idx + snd (textPhase (drop idx toks))).
Proof.
  intros Hle. unfold _processTextStateTokens, bind, tokenCount.
  rewrite textLoop_spec; [|done|rewrite length_drop; lia].
  reflexivity.
Qed.

Lemma checkLoop_spec (types : list TokenType) (toks : list Token) :
  EOF ∉ types ->
  forall idx, idx <= length toks ->
    exists idx', checkLoop types toks idx = Done (typesMatch types (drop idx toks), idx').
Proof.
  induction types as [|ty types IH]; intros HE idx Hle; cbn [checkLoop typesMatch].
  - by exists idx.
  - apply not_elem_of_cons in HE as [Hty HE].
    unfold bind at 1. rewrite peek_spec by done.
    destruct (drop idx toks) as [|tok rest] eqn:E; cbn [headType].
    + destruct (TokenType_eqb EOF ty) eqn:Et.
      * apply TokenType_eqb_eq in Et. congruence.
      * by exists idx.
    + apply drop_cons_inv in E as (Hl & Hrest & Hlt).
      destruct (TokenType_eqb (type tok) ty); cbn [negb andb].
      * unfold bind, _takeToken. rewrite <- Hrest. apply IH; [done | lia].
      * by exists idx.
Qed.

Lemma checkField_spec (toks : list Token) (idx : nat) :
  idx <= length toks ->
  _checkFieldTokens toks idx = Done (typesMatch fieldTokenTypeList (drop idx toks), idx).
Proof.
  intros Hle. unfold _checkFieldTokens, bind, getTokenIndex, setTokenIndex, ret.
  destruct (checkLoop_spec fieldTokenTypeList toks) with (idx := idx) as [idx' ->];
    [|done|done].
  unfold fieldTokenTypeList. rewrite !not_elem_of_cons.
  repeat split; try done. apply not_elem_of_nil.
Qed.

Lemma typesMatch_field (l : list Token) :
  typesMatch fieldTokenTypeList l = true ->
  exists t0 t1 t2 t3 t4 rest,
    l = t0 :: t1 :: t2 :: t3 :: t4 :: rest
    /\ type t0 = OPEN_BRACKET /\ type t1 = SYMBOL /\ type t2 = COLON
    /\ type t3 = SYMBOL /\ type t4 = CLOSE_BRACKET.
Proof.
  unfold fieldTokenTypeList. cbn [typesMatch].
  destruct l as [|t0 [|t1 [|t2 [|t3 [|t4 rest]]]]];
    rewrite ?andb_false_r; try done.
  rewrite !andb_true_iff, !TokenType_eqb_eq.
  intros (? & ? & ? & ? & ? & _). by exists t0, t1, t2, t3, t4, rest.
Qed.

Lemma lookup_of_drop (toks : list Token) (idx : nat) (l : list Token) (i : nat) :
  drop idx toks = l -> toks !! (idx + i) = l !! i.
Proof. intros <-. by rewrite lookup_drop. Qed.

Lemma fieldState_spec (toks : list Token) (idx : nat) :
  idx <= length toks ->
  _processFieldStateTokens toks idx =
  Done (fst (fieldPhase (drop idx toks)), idx + snd (fieldPhase (drop idx toks))).
Proof.
  intros Hle. unfold _processFieldStateTokens, fieldPhase.
  unfold bind at 1. rewrite peek_spec by done.
  destruct (TokenType_eqb (headType (drop idx toks)) EOF) eqn:Eeof.
  - cbn. by rewrite Nat.add_0_r.
  - unfold bind at 1. rewrite checkField_spec by done.
    destruct (typesMatch fieldTokenTypeList (drop idx toks)) eqn:Em.
    + apply typesMatch_field in Em as (t0 & t1 & t2 & t3 & t4 & rest & El & _).
      rewrite El. cbn [fst snd].
      unfold _processCompleteField, bind, _takeToken.
      assert (H1 : toks !! S idx = Some t1).
      { replace (S idx) with (idx + 1) by lia. by rewrite (lookup_of_drop _ _ _ 1 El). }
      assert (H3 : toks !! S (S (S idx)) = Some t3).
      { replace (S (S (S idx))) with (idx + 3) by lia.
        by rewrite (lookup_of_drop _ _ _ 3 El). }
      rewrite H1. cbn [deref ret]. rewrite H3. cbn [deref ret].
      apply (f_equal Done), (f_equal2 pair); [done | lia].
    + unfold _processBadField, bind, tokenCount.
      rewrite badLoop_spec; [|done|rewrite length_drop; lia].
      reflexivity.
Qed.

(** ** The parse loop as a relation on the remaining tokens *)

Lemma run_split (p : Token -> bool) (l : list Token) :
  l = run p l ++ drop (length (run p l)) l.
Proof.
  induction l as [|tok l IH]; cbn; [done|].
  destruct (p tok); cbn; [by rewrite <- IH | done].
Qed.

Lemma run_stops (p : Token -> bool) (l : list Token) :
  match drop (length (run p l)) l with
  | [] => True
  | tok :: _ => p tok = false
  end.
Proof.
  induction l as [|tok l IH]; cbn; [done|].
  destruct (p tok) eqn:E; cbn; done.
Qed.

Lemma textPhase_le (l : list Token) : snd (textPhase l) <= length l.
Proof. apply length_run_le. Qed.

Lemma fieldPhase_le (l : list Token) : snd (fieldPhase l) <= length l.
Proof.
  unfold fieldPhase. destruct (TokenType_eqb (headType l) EOF); [cbn; lia|].
  destruct (typesMatch fieldTokenTypeList l) eqn:E.
  - apply typesMatch_field in E as (t0 & t1 & t2 & t3 & t4 & rest & -> & _).
    cbn. lia.
  - apply length_run_le.
Qed.

(** After the text phase the next token, if any, is not a text token; so
    the field phase takes at least one token unless none is left. *)
Lemma fieldPhase_after_text (l : list Token) :
  let l1 := drop (snd (textPhase l)) l in
  headType l1 <> EOF -> 0 < snd (fieldPhase l1).
Proof.
  intros l1 Hne. subst l1. unfold textPhase in *; cbn [snd] in *.
  pose proof (run_stops isText l) as Hstop.
  destruct (drop (length (run isText l)) l) as [|tok rest] eqn:E; [done|].
  cbn [headType] in Hne. unfold fieldPhase. cbn [headType].
  destruct (TokenType_eqb (type tok) EOF) eqn:Eeof;
    [by apply TokenType_eqb_eq in Eeof|].
  destruct (typesMatch fieldTokenTypeList (tok :: rest)) eqn:Em.
  - apply typesMatch_field in Em as (t0 & t1 & t2 & t3 & t4 & rest' & [= -> ->] & _).
    cbn. lia.
  - cbn [snd run]. unfold isText in Hstop. unfold isBad.
    destruct (type tok); cbn in *; try done; lia.
Qed.

Lemma iteration_progress (l : list Token) :
  headType l <> EOF ->
  0 < snd (textPhase l) + snd (fieldPhase (drop (snd (textPhase l)) l)).
Proof.
  intros Hne.
  destruct (snd (textPhase l)) as [|n] eqn:E; [|lia].
  pose proof (fieldPhase_after_text l) as H. cbn zeta in H. rewrite E in H.
  rewrite drop_0 in *. by apply H.
Qed.

Lemma parseLoop_spec (toks : list Token) (fuel : nat) :
  forall (result : list Segment) (idx : nat),
    idx <= length toks ->
    length (drop idx toks) < fuel ->
    exists segs idx',
      parseLoop fuel result toks idx = Done (result ++ segs, idx')
      /\ parsed (drop idx toks) segs
      /\ idx <= idx' <= length toks
      /\ headType (drop idx' toks) = EOF.
Proof.
  induction fuel as [|fuel IH]; intros result idx Hle Hfuel; [lia|].
  cbn [parseLoop]. unfold bind at 1. rewrite peek_spec by done.
  destruct (TokenType_eqb (headType (drop idx toks)) EOF) eqn:Eeof; cbn [negb].
  - apply TokenType_eqb_eq in Eeof.
    exists [], idx. rewrite app_nil_r. repeat split; try done. by constructor.
  - assert (Hne : headType (drop idx toks) <> EOF).
    { intros H. apply TokenType_eqb_eq in H. congruence. }
    set (l := drop idx toks) in *.
    set (n1 := snd (textPhase l)).
    set (l1 := drop n1 l).
    set (n2 := snd (fieldPhase l1)).
    pose proof (textPhase_le l) as Hn1. fold n1 in Hn1.
    pose proof (fieldPhase_le l1) as Hn2. fold n2 in Hn2.
    pose proof (iteration_progress l Hne) as Hprog. fold n1 l1 n2 in Hprog.
    assert (Hll : length l = length toks - idx) by (subst l; apply length_drop).
    assert (Hl1 : l1 = drop (idx + n1) toks) by (subst l1 l; apply drop_drop).
    assert (Hll1 : length l1 = length l - n1) by (subst l1; apply length_drop).
    unfold bind at 1. rewrite textState_spec by done. fold l n1.
    unfold bind at 1. rewrite fieldState_spec by lia. rewrite <- Hl1. fold n2.
    destruct (IH ((result ++ fst (textPhase l)) ++ fst (fieldPhase l1)) (idx + n1 + n2))
      as (segs & idx' & Hrun & Hparsed & Hidx & Hend).
    { lia. }
    { rewrite length_drop. lia. }
    exists (fst (textPhase l) ++ fst (fieldPhase l1) ++ segs), idx'.
    rewrite Hrun, <- !app_assoc. repeat split; try done; try lia.
    eapply parsed_iter; try done.
    replace (drop (snd (fieldPhase l1)) l1) with (drop (idx + n1 + n2) toks); [done|].
    fold n2. rewrite Hl1. by rewrite drop_drop.
Qed.

Lemma parsed_deterministic (l : list Token) segs1 segs2 :
  parsed l segs1 -> parsed l segs2 -> segs1 = segs2.
Proof.
  intros H1. revert segs2.
  induction H1 as [l Hl | l l1 l2 segs Hl -> -> _ IH]; intros segs2 H2.
  - inversion H2; [done | congruence].
  - inversion H2 as [|? ? ? segs' _ -> -> Hp]; subst; [congruence|].
    do 2 f_equal. by apply IH.
Qed.

(** [_parse] lexes, runs the loop from the first token and corrects the
    columns; it always returns. *)
Lemma parse_spec (template : string) :
  exists toks segs,
    lexed NORMAL template toks /\ parsed toks segs
    /\ _parse template = Done (correctColumns 0 segs).
Proof.
  destruct (lexLoop_lexed (String.length template) [] template NORMAL)
    as (toks & Hlex & Hlexed); [done|].
  destruct (parseLoop_spec toks (S (length toks)) [] 0) as (segs & idx' & Hrun & Hp & _).
  { lia. }
  { rewrite drop_0. lia. }
  exists toks, segs. rewrite drop_0 in Hp. repeat split; try done.
  unfold _parse, lex. rewrite Hlex. cbn [app]. by rewrite Hrun.
Qed.

Lemma parse_intro (template : string) toks segs :
  lexed NORMAL template toks -> parsed toks segs ->
  _parse template = Done (correctColumns 0 segs).
Proof.
  intros Hl Hp. destruct (parse_spec template) as (toks' & segs' & Hl' & Hp' & ->).
  assert (toks' = toks) as -> by (eapply lexed_deterministic; eauto).
  by assert (segs' = segs) as -> by (eapply parsed_deterministic; eauto).
Qed.

Lemma parsed_segmentsOf (fuel : nat) :
  forall l, length l < fuel -> parsed l (segmentsOf fuel l).
Proof.
  induction fuel as [|fuel IH]; intros l Hlen; [lia|].
  cbn [segmentsOf].
  destruct (TokenType_eqb (headType l) EOF) eqn:E.
  - constructor. by apply TokenType_eqb_eq.
  - assert (Hne : headType l <> EOF).
    { intros H. apply TokenType_eqb_eq in H. congruence. }
    eapply parsed_iter; try done. apply IH.
    pose proof (iteration_progress l Hne).
    pose proof (textPhase_le l).
    pose proof (fieldPhase_le (drop (snd (textPhase l)) l)) as H3.
    rewrite length_drop in H3. rewrite !length_drop. lia.
Qed.

(** ** Characters of a string *)

Lemma occurs_append (c : ascii) (s t : string) :
  occurs c (s +:+ t) = occurs c s || occurs c t.
Proof. induction s as [|d s IH]; cbn; [done|]. by rewrite IH, orb_assoc. Qed.

Lemma matchMany_text_all (s : string) :
  occurs "$" s = false -> occurs "\" s = false -> matchMany textClass s = s.
Proof.
  induction s as [|c s IH]; cbn; [done|].
  unfold charIn; cbn.
  intros [-> H1]%orb_false_iff [-> H2]%orb_false_iff. cbn. by rewrite IH.
Qed.

Lemma matchMany_symbol_append (s rest : string) :
  occurs ":" s = false -> occurs "}" s = false ->
  matchMany symbolClass (s +:+ rest) = s +:+ matchMany symbolClass rest.
Proof.
  induction s as [|c s IH]; cbn; [done|].
  unfold charIn; cbn.
  intros [-> H1]%orb_false_iff [-> H2]%orb_false_iff. cbn. by rewrite IH.
Qed.

(** ** The tokens spell the input *)

Lemma lexed_texts (state : LexerState) (input : string) (toks : list Token) :
  lexed state input toks -> texts toks = input.
Proof.
  induction 1 as [|state input rule m tokens Hne Hm _ IH]; [done|].
  unfold texts in *. cbn [map text]. rewrite join_cons, IH.
  by apply firstMatch_prefix in Hm as [<- _].
Qed.

(** * Templates of plain text *)

Lemma lexed_plain (template : string) :
  template <> "" -> occurs "$" template = false -> occurs "\" template = false ->
  lexed NORMAL template [{| type := STRING; text := template |}].
Proof.
  intros Hne Hd Hb.
  destruct (rules_exhaustive NORMAL template Hne) as (rule & m & Hm).
  pose proof (firstMatch_prefix _ _ _ _ Hm) as (Hpre & _).
  pose proof (normal_step_cases _ _ _ Hm) as Hcases.
  assert (Hrun : ruleType rule = STRING /\ newState rule = NORMAL /\ m = template).
  { destruct Hcases as [(_ & _ & ->) | [(_ & _ & ->) | [(? & ? & -> & _)
      | [(_ & _ & -> & _) | (_ & _ & -> & _)]]]];
      try (rewrite Hpre in Hd, Hb; cbn in Hd, Hb; congruence).
    by rewrite matchMany_text_all. }
  destruct Hrun as (Hty & Hst & ->).
  rewrite <- Hty. eapply lexed_rule; [done | exact Hm |].
  rewrite Hst. replace (slice _ template) with ""; [constructor|].
  symmetry. rewrite <- (append_nil_r template) at 2. apply slice_append.
Qed.

(** C4, as the code has it. A template with no [$] and no [\] that is not
    empty parses to exactly one Text segment, whose text is the template and
    whose columns are [0] and the template's length; the empty template
    parses to no segment at all. *)
Theorem parse_plain_text (template : string) :
  occurs "$" template = false -> occurs "\" template = false ->
  (template <> "" ->
   _parse template = Done [TextSegment template 0 (String.length template)])
  /\ (template = "" -> _parse template = Done []).
Proof.
  intros Hd Hb. split.
  - intros Hne.
    rewrite (parse_intro template _ _ (lexed_plain template Hne Hd Hb)
               (parsed_segmentsOf 2 [{| type := STRING; text := template |}]
                  ltac:(cbn; lia))).
    cbn.
    destruct (String.length template =? 0) eqn:E.
    + apply Nat.eqb_eq, length_zero_iff in E. done.
    + cbn. by rewrite Nat.add_0_r.
  - intros ->. reflexivity.
Qed.

Lemma parse_plain_text_witness :
  _parse "Hello" = Done [TextSegment "Hello" 0 5].
Proof.
  apply (parse_plain_text "Hello"); [reflexivity | reflexivity | discriminate].
Defined.

(** C4, as the spec words it, fails on the empty template: it has no [$] and
    no [\], and parses to no segment. *)
Lemma parse_plain_text_empty :
  ~ (forall template : string,
        occurs "$" template = false -> occurs "\" template = false ->
        _parse template = Done [TextSegment template 0 (String.length template)]).
Proof. intros H. specialize (H "" eq_refl eq_refl). discriminate H. Qed.

(** * Building a lexing rule by rule *)

Lemma lexed_step state input rule m tokens ty state' rest :
  firstMatch (LexerStateRules state) input = Some (rule, m) ->
  ruleType rule = ty -> newState rule = state' ->
  input = m +:+ rest ->
  lexed state' rest tokens ->
  lexed state input ({| type := ty; text := m |} :: tokens).
Proof.
  intros Hm <- <- Hin Hrest.
  pose proof (lexer_match_nonempty _ _ _ _ Hm) as Hne.
  eapply lexed_rule; [|exact Hm|].
  - intros ->. destruct m; done.
  - by rewrite Hin, slice_append.
Qed.

Lemma lexed_open rest tokens :
  lexed FIELD rest tokens ->
  lexed NORMAL ("${" +:+ rest) ({| type := OPEN_BRACKET; text := "${" |} :: tokens).
Proof. intros H. eapply lexed_step; [reflexivity..|done]. Qed.

Lemma lexed_escape rest tokens :
  lexed NORMAL rest tokens ->
  lexed NORMAL ("\$" +:+ rest) ({| type := ESCAPE_DOLLAR; text := "\$" |} :: tokens).
Proof. intros H. eapply lexed_step; [reflexivity..|done]. Qed.

Lemma lexed_colon rest tokens :
  lexed FIELD rest tokens ->
  lexed FIELD (":" +:+ rest) ({| type := COLON; text := ":" |} :: tokens).
Proof. intros H. eapply lexed_step; [reflexivity..|done]. Qed.

Lemma lexed_close rest tokens :
  lexed NORMAL rest tokens ->
  lexed FIELD ("}" +:+ rest) ({| type := CLOSE_BRACKET; text := "}" |} :: tokens).
Proof. intros H. eapply lexed_step; [reflexivity..|done]. Qed.

Lemma lexed_symbol s rest tokens :
  s <> "" -> occurs ":" s = false -> occurs "}" s = false ->
  matchMany symbolClass rest = "" ->
  lexed FIELD rest tokens ->
  lexed FIELD (s +:+ rest) ({| type := SYMBOL; text := s |} :: tokens).
Proof.
  intros Hne Hc Hb Hstop H.
  eapply lexed_step with (rule := {| match_ := Many symbolClass;
                                     ruleType := SYMBOL; newState := FIELD |});
    [|reflexivity..|done].
  cbn [LexerStateRules FieldParseRules firstMatch match_ regexMatch].
  fold symbolClass. rewrite matchMany_symbol_append, Hstop, append_nil_r by done.
  by destruct s.
Qed.

(** * A well-formed field *)

(** C3. For a namespace and a key that are non-empty and contain neither [:]
    nor [}], the template [${ns:key}] parses to exactly one Field segment
    with that namespace and that key (the raw symbol texts), spanning the
    whole template. No further condition on the namespace is needed. *)
Theorem parse_field (ns key : string) :
  ns <> "" -> key <> "" ->
  occurs ":" ns = false -> occurs "}" ns = false ->
  occurs ":" key = false -> occurs "}" key = false ->
  _parse ("${" +:+ ns +:+ ":" +:+ key +:+ "}") =
  Done [FieldSegment ns key 0 (String.length ("${" +:+ ns +:+ ":" +:+ key +:+ "}"))].
Proof.
  intros Hns Hkey Hn1 Hn2 Hk1 Hk2.
  set (toks := [ {| type := OPEN_BRACKET; text := "${" |};
                 {| type := SYMBOL; text := ns |};
                 {| type := COLON; text := ":" |};
                 {| type := SYMBOL; text := key |};
                 {| type := CLOSE_BRACKET; text := "}" |} ]).
  assert (Hlex : lexed NORMAL ("${" +:+ ns +:+ ":" +:+ key +:+ "}") toks).
  { apply lexed_open, lexed_symbol; try done.
    apply lexed_colon, lexed_symbol; try done.
    rewrite <- (append_nil_r "}"). apply lexed_close. constructor. }
  rewrite (parse_intro _ _ _ Hlex (parsed_segmentsOf 6 toks ltac:(cbn; lia))).
  cbn. rewrite length_append. cbn. rewrite length_append. cbn.
  apply (f_equal Done), (f_equal2 cons); [|done].
  apply (f_equal (FieldSegment ns key 0)). lia.
Qed.

Lemma parse_field_witness :
  _parse "${user:name}" = Done [FieldSegment "user" "name" 0 12].
Proof. apply (parse_field "user" "name"); (discriminate || reflexivity). Defined.

(** * An unterminated field *)

Lemma lexed_exists (state : LexerState) (input : string) :
  exists toks, lexed state input toks.
Proof.
  destruct (lexLoop_lexed (String.length input) [] input state) as (toks & _ & H);
    [done | by exists toks].
Qed.

(** Without a [}] the lexer never leaves the FIELD state. *)
Lemma lexed_unclosed (state : LexerState) (input : string) (toks : list Token) :
  lexed state input toks ->
  state = FIELD -> occurs "}" input = false ->
  Forall symbolOrColon toks.
Proof.
  induction 1 as [|state input rule m tokens Hne Hm _ IH]; intros -> Hno; [done|].
  pose proof (firstMatch_prefix _ _ _ _ Hm) as (Hpre & _).
  pose proof Hno as Hno0.
  rewrite Hpre, occurs_append in Hno. apply orb_false_iff in Hno as [_ Hno].
  destruct (field_step_cases _ _ _ Hm)
    as [(Hty & Hst & _) | [(Hty & Hst & _) | (_ & _ & -> & [r Hr])]].
  - constructor; [by left | by apply IH].
  - constructor; [by right | by apply IH].
  - rewrite Hr in Hno0. done.
Qed.

Lemma run_all (p : Token -> bool) (l : list Token) :
  Forall (fun tok => p tok = true) l -> run p l = l.
Proof. induction 1 as [|tok l Hp _ IH]; cbn; [done|]. by rewrite Hp, IH. Qed.

(** C5. A template that opens a field and never closes it, [${] followed by
    any text without [}], parses (without any exception) to a single Error
    segment whose text is the whole raw template. *)
Theorem parse_unterminated_field (rest : string) :
  occurs "}" rest = false ->
  _parse ("${" +:+ rest) =
  Done [ErrorSegment ("${" +:+ rest) "" 0 (String.length ("${" +:+ rest))].
Proof.
  intros Hno.
  destruct (lexed_exists FIELD rest) as (toks & Hlex).
  pose proof (lexed_unclosed _ _ _ Hlex eq_refl Hno) as Hall.
  pose proof (lexed_open _ _ Hlex) as Hlex'.
  set (l := {| type := OPEN_BRACKET; text := "${" |} :: toks) in *.
  assert (Hbad : Forall (fun tok => isBad tok = true) l).
  { constructor; [done|].
    eapply Forall_impl; [exact Hall|]. intros tok [H|H]; unfold isBad; by rewrite H. }
  assert (Hnofield : typesMatch fieldTokenTypeList l = false).
  { destruct (typesMatch fieldTokenTypeList l) eqn:E; [|done].
    apply typesMatch_field in E as (t0 & t1 & t2 & t3 & t4 & r & El & _ & _ & _ & _ & Hc).
    injection El as _ ->.
    rewrite !Forall_cons in Hall. destruct Hall as (_ & _ & _ & [H|H] & _); congruence. }
  assert (Hp : parsed l [ErrorSegment (texts l) "" 0 (String.length (texts l))]).
  { change [ErrorSegment (texts l) "" 0 (String.length (texts l))]
      with ([] ++ [ErrorSegment (texts l) "" 0 (String.length (texts l))] ++ []).
    assert (Ht : textPhase l = ([], 0)) by done.
    assert (Hf : fieldPhase l =
                 ([ErrorSegment (texts l) "" 0 (String.length (texts l))], length l)).
    { unfold fieldPhase. rewrite Hnofield. cbn [headType l type TokenType_eqb].
      by rewrite run_all. }
    replace [] with (fst (textPhase l)) at 1 by by rewrite Ht.
    replace [ErrorSegment (texts l) "" 0 (String.length (texts l))]
      with (fst (fieldPhase (drop (snd (textPhase l)) l))) by by rewrite Ht, drop_0, Hf.
    eapply parsed_iter; try done.
    rewrite Ht, drop_0, Hf. cbn [snd]. rewrite drop_all. by constructor. }
  rewrite (parse_intro _ _ _ Hlex' Hp).
  by rewrite (lexed_texts _ _ _ Hlex').
Qed.

Lemma parse_unterminated_field_witness :
  _parse "${ns:key" = Done [ErrorSegment "${ns:key" "" 0 8].
Proof. apply (parse_unterminated_field "ns:key"). reflexivity. Defined.

(** * Termination of the parse loop *)

(** C6. In an iteration of the loop of [_parse] (the cursor is within the
    tokens and the loop condition holds: the peeked type is not EOF) the text
    phase and then the field phase return, and the cursor ends strictly
    further than it started. If the text phase took no token, the field phase
    took at least one; and the field phase, which the loop runs after the
    text phase, takes at least one token whenever a token is left there.
    Hence the loop returns on every token sequence (those of the lexer
    included) once the fuel exceeds the number of tokens, which is what
    [_parse] supplies; in particular [_parse] returns on every template. *)
Theorem parse_loop_advances (toks : list Token) :
  (forall (idx : nat) (ty : TokenType),
      idx <= length toks ->
      _peekTokenType toks idx = Done (ty, idx) -> ty <> EOF ->
      exists s1 i1 s2 i2,
        _processTextStateTokens toks idx = Done (s1, i1)
        /\ _processFieldStateTokens toks i1 = Done (s2, i2)
        /\ idx <= i1 /\ i1 <= i2 /\ i2 <= length toks
        /\ idx < i2
        /\ (i1 = idx -> i1 < i2)
        /\ (forall ty', _peekTokenType toks i1 = Done (ty', i1) -> ty' <> EOF -> i1 < i2))
  /\ (forall fuel, length toks < fuel ->
        exists segs idx', parseLoop fuel [] toks 0 = Done (segs, idx')
                          /\ parsed toks segs)
  /\ (forall template, exists segs, _parse template = Done segs).
Proof.
  split; [|split].
  - intros idx ty Hle Hpeek Hty.
    rewrite peek_spec in Hpeek by done. injection Hpeek as <-.
    set (l := drop idx toks) in *.
    set (n1 := snd (textPhase l)).
    set (l1 := drop n1 l).
    set (n2 := snd (fieldPhase l1)).
    pose proof (textPhase_le l) as Hn1. fold n1 in Hn1.
    pose proof (fieldPhase_le l1) as Hn2. fold n2 in Hn2.
    pose proof (iteration_progress l Hty) as Hprog. fold n1 l1 n2 in Hprog.
    pose proof (fieldPhase_after_text l) as Hfield. cbn zeta in Hfield.
    fold n1 l1 n2 in Hfield.
    assert (Hll : length l = length toks - idx) by (subst l; apply length_drop).
    assert (Hl1 : l1 = drop (idx + n1) toks) by (subst l1 l; apply drop_drop).
    assert (Hll1 : length l1 = length l - n1) by (subst l1; apply length_drop).
    exists (fst (textPhase l)), (idx + n1), (fst (fieldPhase l1)), (idx + n1 + n2).
    split; [by rewrite textState_spec|].
    split; [rewrite fieldState_spec by lia; by rewrite <- Hl1|].
    repeat split; try lia.
    intros ty' Hpeek' Hty'.
    rewrite peek_spec in Hpeek' by lia. injection Hpeek' as <-.
    rewrite <- Hl1 in Hty'. specialize (Hfield Hty'). lia.
  - intros fuel Hfuel.
    destruct (parseLoop_spec toks fuel [] 0) as (segs & idx' & Hrun & Hp & _).
    { lia. }
    { rewrite drop_0. lia. }
    exists segs, idx'. by rewrite drop_0 in Hp.
  - intros template. destruct (parse_spec template) as (? & segs & _ & _ & ->).
    by eexists.
Qed.

Lemma parse_loop_advances_witness :
  exists s1 i1 s2 i2,
    let toks := [ {| type := OPEN_BRACKET; text := "${" |};
                  {| type := SYMBOL; text := "a" |};
                  {| type := STRING; text := "b" |} ] in
    _processTextStateTokens toks 0 = Done (s1, i1)
    /\ _processFieldStateTokens toks i1 = Done (s2, i2)
    /\ 0 <= i1 /\ i1 <= i2 /\ i2 <= length toks
    /\ 0 < i2
    /\ (i1 = 0 -> i1 < i2)
    /\ (forall ty', _peekTokenType toks i1 = Done (ty', i1) -> ty' <> EOF -> i1 < i2).
Proof.
  apply (proj1 (parse_loop_advances
                  [ {| type := OPEN_BRACKET; text := "${" |};
                    {| type := SYMBOL; text := "a" |};
                    {| type := STRING; text := "b" |} ]) 0 OPEN_BRACKET);
    [cbn; lia | reflexivity | discriminate].
Defined.

(** * What the lexer's tokens look like *)

Lemma lexed_tokenOK (state : LexerState) (input : string) (toks : list Token) :
  lexed state input toks -> Forall tokenOK toks.
Proof.
  induction 1 as [|state input rule m tokens Hne Hm _ IH]; [done|].
  constructor; [|done]. unfold tokenOK; cbn [type text].
  pose proof (lexer_match_nonempty _ _ _ _ Hm) as Hm0.
  destruct state; cbn [LexerStateRules] in Hm.
  - destruct (normal_step_cases _ _ _ Hm)
      as [(-> & _ & ->) | [(-> & _ & ->) | [(-> & _) | [(-> & _) | (-> & _)]]]];
      done.
  - destruct (field_step_cases _ _ _ Hm)
      as [(-> & _) | [(-> & _ & -> & _) | (-> & _ & -> & _)]]; done.
Qed.

Lemma Lexed_tail (tok : Token) (l : list Token) : Lexed (tok :: l) -> Lexed l.
Proof. intros (state & input & H). inversion H; subst. by eexists _, _. Qed.

Lemma Lexed_drop (n : nat) (l : list Token) : Lexed l -> Lexed (drop n l).
Proof.
  revert l. induction n as [|n IH]; intros l H; [by rewrite drop_0|].
  destruct l as [|tok l]; [done|]. cbn. apply IH. by eapply Lexed_tail.
Qed.

Lemma Lexed_tokenOK (l : list Token) : Lexed l -> Forall tokenOK l.
Proof. intros (state & input & H). by eapply lexed_tokenOK. Qed.

Lemma Lexed_headType (l : list Token) : Lexed l -> headType l = EOF -> l = [].
Proof.
  intros H%Lexed_tokenOK Hty. destruct l as [|tok l]; [done|].
  apply Forall_cons in H as [H _]. unfold tokenOK in H. cbn in Hty.
  by rewrite Hty in H.
Qed.

(** In the FIELD state the next token is not a text token. *)
Lemma lexed_field_head (input : string) (toks : list Token) :
  lexed FIELD input toks -> run isText toks = [].
Proof.
  inversion 1 as [|? ? rule m tokens Hne Hm _]; subst; [done|].
  cbn [run]. unfold isText; cbn [type].
  destruct (field_step_cases _ _ _ Hm)
    as [(-> & _) | [(-> & _) | (-> & _)]]; done.
Qed.

(** * Escapes *)

Lemma unescape_escape (s : string) : unescape ("\$" +:+ s) = "$" +:+ unescape s.
Proof. reflexivity. Qed.

Lemma unescape_other (c : ascii) (s : string) :
  c <> "\"%char -> unescape (String c s) = String c (unescape s).
Proof.
  intros Hc. cbn [unescape]. destruct s as [|d s]; [done|].
  destruct (Ascii.eqb_spec c "\"); [done|]. reflexivity.
Qed.

Lemma unescape_backslash (s : string) :
  ~ startsWith "$" s -> unescape (String "\" s) = String "\" (unescape s).
Proof.
  intros Hs. cbn [unescape]. destruct s as [|d s]; [done|].
  destruct (Ascii.eqb_spec d "$") as [->|Hd]; [|done].
  exfalso. apply Hs. by exists s.
Qed.

Lemma unescape_plain (m s : string) :
  occurs "\" m = false -> unescape (m +:+ s) = m +:+ unescape s.
Proof.
  induction m as [|c m IH]; [done|]. cbn [occurs].
  intros [Hc Hm]%orb_false_iff. rewrite append_cons.
  rewrite unescape_other, IH; [done..|].
  intros ->. done.
Qed.

Lemma matchMany_text_class (s : string) :
  occurs "$" (matchMany textClass s) = false
  /\ occurs "\" (matchMany textClass s) = false.
Proof.
  induction s as [|c s [IH1 IH2]]; [done|]. cbn [matchMany].
  destruct (inClass textClass c) eqn:E; [|done].
  cbn [occurs]. rewrite IH1, IH2, !orb_false_r.
  unfold inClass, textClass, charIn in E. cbn in E.
  rewrite orb_false_r in E. apply negb_true_iff, orb_false_iff in E. done.
Qed.

Lemma texts_cons (tok : Token) (l : list Token) : texts (tok :: l) = text tok +:+ texts l.
Proof. unfold texts. cbn [map]. apply join_cons. Qed.

Lemma texts_app (l1 l2 : list Token) : texts (l1 ++ l2) = texts l1 +:+ texts l2.
Proof. unfold texts. rewrite map_app. apply join_app. Qed.

Lemma texts_run_prefix (p : Token -> bool) (l : list Token) :
  exists rest, texts l = texts (run p l) +:+ rest.
Proof.
  exists (texts (drop (length (run p l)) l)).
  rewrite <- texts_app, <- run_split. done.
Qed.

Lemma run_cons_true (p : Token -> bool) (tok : Token) (l : list Token) :
  p tok = true -> run p (tok :: l) = tok :: run p l.
Proof. intros H. cbn. by rewrite H. Qed.

Lemma run_cons_false (p : Token -> bool) (tok : Token) (l : list Token) :
  p tok = false -> run p (tok :: l) = [].
Proof. intros H. cbn. by rewrite H. Qed.

(** The decoded text of a run of text tokens is its source text with the
    escapes read. *)
Lemma text_run_unescape (state : LexerState) (input : string) (toks : list Token) :
  lexed state input toks ->
  unescape (texts (run isText toks)) = join (map decoded (run isText toks)).
Proof.
  induction 1 as [|state input rule m tokens Hne Hm Hrest IH]; [done|].
  pose proof (firstMatch_prefix _ _ _ _ Hm) as (Hpre & _).
  set (tok := {| type := ruleType rule; text := m |}).
  destruct state; cbn [LexerStateRules] in Hm.
  - assert (Hstep : forall d, isText tok = true -> decoded tok = d ->
        unescape (m +:+ texts (run isText tokens)) = d +:+ unescape (texts (run isText tokens)) ->
        unescape (texts (run isText (tok :: tokens)))
        = join (map decoded (run isText (tok :: tokens)))).
    { intros d Ht Hd Hu. rewrite run_cons_true by done.
      rewrite texts_cons. cbn [map]. by rewrite join_cons, Hd, <- IH. }
    destruct (normal_step_cases _ _ _ Hm)
      as [(Hty & _) | [(Hty & _ & ->) | [(Hty & _ & Hmm & _)
           | [(Hty & _ & -> & _) | (Hty & _ & -> & Hno)]]]].
    + rewrite run_cons_false; [done|]. unfold isText, tok; cbn [type]. by rewrite Hty.
    + apply (Hstep "$"); [unfold isText, tok; cbn [type]; by rewrite Hty
        | unfold decoded, tok; cbn [type text]; by rewrite Hty |].
      apply unescape_escape.
    + apply (Hstep m); [unfold isText, tok; cbn [type]; by rewrite Hty
        | unfold decoded, tok; cbn [type text]; by rewrite Hty |].
      apply unescape_plain. rewrite Hmm. apply (proj2 (matchMany_text_class input)).
    + apply (Hstep "$"); [unfold isText, tok; cbn [type]; by rewrite Hty
        | unfold decoded, tok; cbn [type text]; by rewrite Hty |].
      by apply (unescape_other "$").
    + apply (Hstep "\"); [unfold isText, tok; cbn [type]; by rewrite Hty
        | unfold decoded, tok; cbn [type text]; by rewrite Hty |].
      apply unescape_backslash.
      intros [r Hr]. apply Hno.
      destruct (texts_run_prefix isText tokens) as [rest Hrest'].
      rewrite (lexed_texts _ _ _ Hrest) in Hrest'.
      exists (r +:+ rest). etrans; [exact Hpre|].
      rewrite Hrest', Hr. reflexivity.
  - subst tok.
    by rewrite (lexed_field_head input _ (lexed_rule FIELD input rule m tokens Hne Hm Hrest)).
Qed.

(** * Segments and the source text they come from *)

Lemma covers_sum (segs : list Segment) :
  forall from to, covers from segs to -> from + sum_list (map span segs) = to.
Proof.
  induction segs as [|seg segs IH]; intros from to; cbn [covers map].
  - intros ->. cbn. lia.
  - intros (Hs & Hle & Hc). apply IH in Hc.
    change (sum_list (span seg :: ?l)) with (span seg + sum_list l).
    unfold span at 1. lia.
Qed.

Lemma width_text_run (r : list Token) :
  Forall tokenOK r -> Forall (fun tok => isText tok = true) r ->
  sum_list (map width r) = String.length (texts r).
Proof.
  induction 1 as [|tok r Hok _ IH]; [done|]. intros [Ht Hr]%Forall_cons.
  cbn [map]. change (sum_list (width tok :: ?l)) with (width tok + sum_list l).
  rewrite texts_cons, length_append, IH by done. f_equal.
  unfold width, tokenOK, isText in *.
  destruct (type tok); try done. by rewrite Hok.
Qed.

Lemma run_Forall (p : Token -> bool) (l : list Token) :
  Forall (fun tok => p tok = true) (run p l).
Proof.
  induction l as [|tok l IH]; cbn; [done|].
  destruct (p tok) eqn:E; [by constructor | done].
Qed.

Lemma run_sublist_Forall (P : Token -> Prop) (p : Token -> bool) (l : list Token) :
  Forall P l -> Forall P (run p l).
Proof.
  induction 1 as [|tok l Hp _ IH]; cbn; [done|].
  destruct (p tok); [by constructor | done].
Qed.

Lemma take_run (p : Token -> bool) (l : list Token) :
  take (length (run p l)) l = run p l.
Proof.
  rewrite (run_split p l) at 2. by rewrite take_app_length.
Qed.

Lemma decoded_run_empty (r : list Token) :
  Forall tokenOK r -> Forall (fun tok => isText tok = true) r ->
  join (map decoded r) = "" -> r = [].
Proof.
  destruct 1 as [|tok r Hok _]; [done|]. intros [Ht _]%Forall_cons.
  cbn [map]. rewrite join_cons.
  unfold decoded, tokenOK, isText in *.
  destruct (type tok); try done.
  destruct (text tok); done.
Qed.

Lemma textPhase_chunk (l : list Token) :
  Lexed l ->
  exists chunks, Forall2 rawChunk (fst (textPhase l)) chunks
                 /\ join chunks = texts (take (snd (textPhase l)) l).
Proof.
  intros HL. pose proof (Lexed_tokenOK l HL) as Hok.
  destruct HL as (state & input & Hlex).
  unfold textPhase. cbn [fst snd]. rewrite take_run.
  pose proof (text_run_unescape _ _ _ Hlex) as Hun.
  pose proof (run_Forall isText l) as Ht.
  pose proof (run_sublist_Forall _ isText _ Hok) as Hokr.
  set (r := run isText l) in *.
  destruct (String.length (join (map decoded r)) =? 0) eqn:E; cbn [negb].
  - apply Nat.eqb_eq, length_zero_iff in E.
    rewrite (decoded_run_empty r Hokr Ht E). by exists [].
  - exists [texts r]. split.
    + constructor; [|done]. split; cbn; [done | by apply width_text_run].
    + by rewrite join_cons, join_nil, append_nil_r.
Qed.

Lemma fieldPhase_chunk (l : list Token) :
  Lexed l ->
  exists chunks, Forall2 rawChunk (fst (fieldPhase l)) chunks
                 /\ join chunks = texts (take (snd (fieldPhase l)) l).
Proof.
  intros HL. pose proof (Lexed_tokenOK l HL) as Hok.
  unfold fieldPhase.
  destruct (TokenType_eqb (headType l) EOF) eqn:E.
  - by exists [].
  - destruct (typesMatch fieldTokenTypeList l) eqn:Em.
    + apply typesMatch_field in Em
        as (t0 & t1 & t2 & t3 & t4 & rest & -> & H0 & H1 & H2 & H3 & H4).
      rewrite !Forall_cons in Hok.
      destruct Hok as (K0 & _ & K2 & _ & K4 & _).
      unfold tokenOK in K0, K2, K4. rewrite H0 in K0. rewrite H2 in K2. rewrite H4 in K4.
      cbn [fst snd take].
      exists ["${" +:+ text t1 +:+ ":" +:+ text t3 +:+ "}"]. split.
      * constructor; [|done]. split; [done|]. cbn [endColumn].
        cbn. rewrite length_append. cbn. rewrite length_append. cbn. lia.
      * rewrite join_cons, join_nil, append_nil_r, !texts_cons.
        rewrite K0, K2, K4. reflexivity.
    + cbn [fst snd]. rewrite take_run.
      exists [texts (run isBad l)]. split.
      * constructor; [|done]. by split.
      * by rewrite join_cons, join_nil, append_nil_r.
Qed.

Lemma texts_take_drop (n : nat) (l : list Token) :
  texts l = texts (take n l) +:+ texts (drop n l).
Proof. by rewrite <- texts_app, take_drop. Qed.

Lemma parsed_chunks (l : list Token) (segs : list Segment) :
  parsed l segs -> Lexed l ->
  exists chunks, Forall2 rawChunk segs chunks /\ join chunks = texts l.
Proof.
  induction 1 as [l Hl | l l1 l2 segs Hl -> -> _ IH]; intros HL.
  - rewrite (Lexed_headType l HL Hl). by exists [].
  - set (n1 := snd (textPhase l)) in *.
    set (l1 := drop n1 l) in *.
    set (n2 := snd (fieldPhase l1)) in *.
    assert (HL1 : Lexed l1) by by apply Lexed_drop.
    assert (HL2 : Lexed (drop n2 l1)) by by apply Lexed_drop.
    destruct (textPhase_chunk l HL) as (c1 & Hc1 & Hj1).
    destruct (fieldPhase_chunk l1 HL1) as (c2 & Hc2 & Hj2).
    destruct (IH HL2) as (c3 & Hc3 & Hj3).
    exists (c1 ++ c2 ++ c3). split.
    + by repeat apply Forall2_app.
    + rewrite !join_app, Hj1, Hj2, Hj3.
      fold n1 n2. rewrite <- (texts_take_drop n2 l1).
      subst l1. by rewrite <- (texts_take_drop n1 l).
Qed.

Lemma substring_0_append (c post : string) :
  substring 0 (String.length c) (c +:+ post) = c.
Proof.
  induction c as [|a c IH]; cbn; [by destruct post | by rewrite IH].
Qed.

Lemma substring_append (pre c post : string) :
  substring (String.length pre) (String.length c) (pre +:+ c +:+ post) = c.
Proof.
  induction pre as [|a pre IH]; cbn; [apply substring_0_append | exact IH].
Qed.

Lemma chunkOf_setStartColumn (i : nat) (seg : Segment) (chunk : string) :
  chunkOf (setStartColumn i seg) chunk <-> chunkOf seg chunk.
Proof. by destruct seg. Qed.

Lemma chunkOf_setEndColumn (i : nat) (seg : Segment) (chunk : string) :
  chunkOf (setEndColumn i seg) chunk <-> chunkOf seg chunk.
Proof. by destruct seg. Qed.

Lemma startColumn_set (i j : nat) (seg : Segment) :
  startColumn (setEndColumn j (setStartColumn i seg)) = i.
Proof. by destruct seg. Qed.

Lemma endColumn_set (i j : nat) (seg : Segment) :
  endColumn (setEndColumn j (setStartColumn i seg)) = j.
Proof. by destruct seg. Qed.

Lemma endColumn_setStartColumn (i : nat) (seg : Segment) :
  endColumn (setStartColumn i seg) = endColumn seg.
Proof. by destruct seg. Qed.

(** The column pass turns widths into positions: the segments then cover
    the source text, each one lying on its own chunk. *)
Lemma correctColumns_located (segs : list Segment) (chunks : list string) :
  Forall2 rawChunk segs chunks ->
  forall pre : string,
    covers (String.length pre) (correctColumns (String.length pre) segs)
           (String.length (pre +:+ join chunks))
    /\ Forall (located (pre +:+ join chunks)) (correctColumns (String.length pre) segs).
Proof.
  induction 1 as [|seg chunk segs chunks [Hchunk Hwidth] _ IH]; intros pre.
  - cbn. by rewrite append_nil_r.
  - cbn [correctColumns]. rewrite endColumn_setStartColumn, Hwidth.
    replace (String.length pre + String.length chunk)
      with (String.length (pre +:+ chunk)) by apply length_append.
    rewrite join_cons.
    destruct (IH (pre +:+ chunk)) as [IHc IHl].
    rewrite append_assoc in IHc, IHl.
    split.
    + cbn [covers]. rewrite startColumn_set, endColumn_set, length_append.
      repeat split; [lia | by rewrite <- length_append].
    + constructor; [|done]. unfold located. cbn zeta.
      rewrite startColumn_set, endColumn_set, length_append.
      replace (String.length pre + String.length chunk - String.length pre)
        with (String.length chunk) by lia.
      rewrite substring_append.
      split; [by apply chunkOf_setEndColumn, chunkOf_setStartColumn | done].
Qed.

(** [_parse] returns segments that cover the template, each lying on the
    characters it reads. *)
Lemma parse_located (template : string) :
  exists segs,
    _parse template = Done segs
    /\ covers 0 segs (String.length template)
    /\ Forall (located template) segs.
Proof.
  destruct (parse_spec template) as (toks & raw & Hlex & Hp & ->).
  destruct (parsed_chunks toks raw Hp) as (chunks & Hc & Hj); [by eexists _, _|].
  rewrite (lexed_texts _ _ _ Hlex) in Hj.
  destruct (correctColumns_located raw chunks Hc "") as [H1 H2].
  cbn in H1, H2. rewrite Hj in H1, H2. eauto.
Qed.

(** * The segments partition the template *)

(** C1. For every template, [_parse] returns segments whose column ranges
    follow one another from 0 to the template's length: the first starts at
    0, each next one starts where the one before ended, the last ends at the
    length, and no range runs backwards. The spans add up to the template's
    length. The order is the source order: the characters between a
    segment's columns are the ones it was read from. *)
Theorem segments_partition_template (template : string) :
  exists segs,
    _parse template = Done segs
    /\ covers 0 segs (String.length template)
    /\ sum_list (map span segs) = String.length template
    /\ Forall (located template) segs.
Proof.
  destruct (parse_located template) as (segs & Hp & Hc & Hl).
  exists segs. repeat split; try done.
  by apply covers_sum in Hc.
Qed.

(** * Escaped dollars *)

Lemma unescape_cons2 (c d : ascii) (s : string) :
  unescape (String c (String d s)) =
  if Ascii.eqb c "\" && Ascii.eqb d "$" then String "$" (unescape s)
  else String c (unescape (String d s)).
Proof. reflexivity. Qed.

(** Wherever [\$] occurs in source text, it reads as one [$], and what
    precedes and what follows read as they do on their own. *)
Lemma unescape_occurrence (a b : string) :
  unescape (a +:+ "\$" +:+ b) = unescape a +:+ "$" +:+ unescape b.
Proof.
  enough (H : (forall b, unescape (a +:+ "\$" +:+ b) = unescape a +:+ "$" +:+ unescape b)
              /\ (forall c b, unescape (String c a +:+ "\$" +:+ b)
                              = unescape (String c a) +:+ "$" +:+ unescape b))
    by apply H.
  clear b. induction a as [|d a [IH1 IH2]].
  - split; [done|]. intros c b. cbn.
    by destruct (Ascii.eqb c "\").
  - split; [apply IH2|]. intros c b.
    change (String c (String d a) +:+ "\$" +:+ b)
      with (String c (String d (a +:+ "\$" +:+ b))).
    rewrite !unescape_cons2.
    destruct (Ascii.eqb c "\" && Ascii.eqb d "$").
    + by rewrite IH1.
    + change (String d (a +:+ "\$" +:+ b)) with (String d a +:+ "\$" +:+ b).
      by rewrite IH2.
Qed.

(** C9. In the source text of a Text segment (the characters of the
    template between its columns), every occurrence of [\$] is read as a
    single [$] of the segment's text, between the readings of what precedes
    and what follows it, and counts for 2 in the segment's column span. *)
Theorem escaped_dollar_in_text (template : string) (segs : list Segment)
    (segText : string) (s e : nat) :
  _parse template = Done segs ->
  TextSegment segText s e ∈ segs ->
  segText = unescape (substring s (e - s) template)
  /\ forall a b : string,
       substring s (e - s) template = a +:+ "\$" +:+ b ->
       segText = unescape a +:+ "$" +:+ unescape b
       /\ e - s = String.length a + 2 + String.length b.
Proof.
  intros Hparse Hin.
  destruct (parse_located template) as (segs' & Hp & _ & Hl).
  rewrite Hparse in Hp. injection Hp as <-.
  rewrite Forall_forall in Hl. destruct (Hl _ Hin) as [Hchunk Hlen].
  cbn in Hchunk, Hlen. split; [done|].
  intros a b Hsrc. rewrite Hsrc in Hchunk, Hlen. split.
  - by rewrite Hchunk, unescape_occurrence.
  - rewrite <- Hlen, !length_append. cbn. lia.
Qed.

Lemma escaped_dollar_in_text_witness :
  ", balance: $" = unescape (substring 18 (31 - 18) "Hello ${user:name}, balance: \$${acct:bal}")
  /\ forall a b : string,
       substring 18 (31 - 18) "Hello ${user:name}, balance: \$${acct:bal}"
         = a +:+ "\$" +:+ b ->
       ", balance: $" = unescape a +:+ "$" +:+ unescape b
       /\ 31 - 18 = String.length a + 2 + String.length b.
Proof.
  apply (escaped_dollar_in_text "Hello ${user:name}, balance: \$${acct:bal}"
           [TextSegment "Hello " 0 6; FieldSegment "user" "name" 6 18;
            TextSegment ", balance: $" 18 31; FieldSegment "acct" "bal" 31 42]).
  - vm_compute. reflexivity.
  - apply list_elem_of_In. cbn. tauto.
Defined.

(** * Rendering *)

Lemma contains_intro (before sub after : string) :
  contains (before +:+ sub +:+ after) sub.
Proof. by exists before, after. Qed.

Lemma contains_append_l (pre s sub : string) : contains s sub -> contains (pre +:+ s) sub.
Proof.
  intros (before & after & ->). exists (pre +:+ before), after.
  by rewrite append_assoc.
Qed.

Lemma contains_append_r (s post sub : string) : contains s sub -> contains (s +:+ post) sub.
Proof.
  intros (before & after & ->). exists before, (after +:+ post).
  by rewrite !append_assoc.
Qed.

Lemma countIf_app {A} (p : A -> bool) (l1 l2 : list A) :
  countIf p (l1 ++ l2) = countIf p l1 + countIf p l2.
Proof. unfold countIf. by rewrite List.filter_app, length_app. Qed.

Section RenderingFacts.

Variable he_encode : string -> string.

Lemma renderWith_segments callback this segs :
  _segments this = Some segs ->
  renderWith callback this =
  Done (join (map fst (map callback segs)), concat (map snd (map callback segs))).
Proof. intros H. unfold renderWith. by rewrite H. Qed.

Lemma render_middle (callback : Segment -> string * list Call) before seg after :
  join (map fst (map callback (before ++ seg :: after)))
  = join (map fst (map callback before)) +:+ fst (callback seg)
    +:+ join (map fst (map callback after))
  /\ concat (map snd (map callback (before ++ seg :: after)))
     = concat (map snd (map callback before)) ++ snd (callback seg)
       ++ concat (map snd (map callback after)).
Proof.
  rewrite !map_app. cbn [map]. rewrite join_app, join_cons, concat_app. done.
Qed.

Lemma render_dropped (callback : Segment -> string * list Call) before seg after :
  callback seg = ("", []) ->
  join (map fst (map callback (before ++ seg :: after)))
  = join (map fst (map callback (before ++ after)))
  /\ concat (map snd (map callback (before ++ seg :: after)))
     = concat (map snd (map callback (before ++ after))).
Proof.
  intros H. destruct (render_middle callback before seg after) as [-> ->].
  rewrite H. cbn [fst snd app]. by rewrite !map_app, join_app, concat_app.
Qed.

(** What both renders do with a segment that the plain render drops:
    [marker] is the text the diagnostic render shows for it. *)
Lemma dropped_or_marked this before seg after marker :
  _segments this = Some (before ++ seg :: after) ->
  formatHtmlSegment he_encode (_formatterMap this) seg = ("", []) ->
  contains (fst (formatDiagnosticHtmlSegment he_encode (_formatterMap this) seg))
           ("Unknown '" +:+ marker) ->
  (exists html calls,
      formatHtml he_encode this = Done (html, calls)
      /\ formatHtml he_encode (withSegments (before ++ after) this) = Done (html, calls))
  /\ (exists html calls,
         formatDiagnosticHtml he_encode this = Done (html, calls)
         /\ contains html ("Unknown '" +:+ marker)).
Proof.
  intros Hsegs Hplain Hdiag. split.
  - unfold formatHtml.
    rewrite (renderWith_segments _ _ _ Hsegs).
    rewrite (renderWith_segments _ (withSegments _ _) (before ++ after)) by done.
    cbn [withSegments _formatterMap].
    destruct (render_dropped _ before seg after Hplain) as [-> ->].
    by eexists _, _.
  - unfold formatDiagnosticHtml. rewrite (renderWith_segments _ _ _ Hsegs).
    eexists _, _. split; [done|].
    destruct (render_middle (formatDiagnosticHtmlSegment he_encode (_formatterMap this))
                before seg after) as [-> _].
    by apply contains_append_l, contains_append_r.
Qed.

(** C7. A Field segment whose namespace has no formatter contributes the
    empty string to [formatHtml] (the render is the same as without the
    segment, and no formatter is called for it), while
    [formatDiagnosticHtml] of the same object returns a string that
    contains [Unknown '] followed by the namespace as written. The same
    holds of an Error segment, with its text for the namespace. Both
    renders return. *)
Theorem unknown_dropped_or_marked (this : TemplateString)
    (before after : list Segment) :
  (forall ns key s e,
      _segments this = Some (before ++ FieldSegment ns key s e :: after) ->
      _formatterMap this !! toLowerCase ns = None ->
      formatHtmlSegment he_encode (_formatterMap this) (FieldSegment ns key s e)
      = ("", [])
      /\ (exists html calls,
             formatHtml he_encode this = Done (html, calls)
             /\ formatHtml he_encode (withSegments (before ++ after) this)
                = Done (html, calls))
      /\ (exists html calls,
             formatDiagnosticHtml he_encode this = Done (html, calls)
             /\ contains html ("Unknown '" +:+ ns)))
  /\ (forall errText err s e,
         _segments this = Some (before ++ ErrorSegment errText err s e :: after) ->
         formatHtmlSegment he_encode (_formatterMap this) (ErrorSegment errText err s e)
         = ("", [])
         /\ (exists html calls,
                formatHtml he_encode this = Done (html, calls)
                /\ formatHtml he_encode (withSegments (before ++ after) this)
                   = Done (html, calls))
         /\ (exists html calls,
                formatDiagnosticHtml he_encode this = Done (html, calls)
                /\ contains html ("Unknown '" +:+ errText))).
Proof.
  split.
  - intros ns key s e Hsegs Hnone.
    assert (Hplain : formatHtmlSegment he_encode (_formatterMap this)
                       (FieldSegment ns key s e) = ("", [])).
    { cbn. by rewrite Hnone. }
    split; [done|].
    apply (dropped_or_marked this before _ after ns Hsegs Hplain).
    unfold formatDiagnosticHtmlSegment. rewrite Hnone. cbn [fst].
    apply contains_append_l. exists "", ("'" +:+ spanClose).
    by rewrite append_assoc.
  - intros errText err s e Hsegs.
    split; [done|].
    apply (dropped_or_marked this before _ after errText Hsegs eq_refl).
    cbn [formatDiagnosticHtmlSegment fst].
    apply contains_append_l. exists "", ("'" +:+ spanClose).
    by rewrite append_assoc.
Qed.

Lemma countIf_cons {A} (p : A -> bool) (x : A) (l : list A) :
  countIf p (x :: l) = (if p x then 1 else 0) + countIf p l.
Proof. unfold countIf. cbn. by destruct (p x). Qed.

Lemma setTemplateString_spec (template : string) (this : TemplateString) :
  exists segs,
    _parse template = Done segs
    /\ setTemplateString template this
       = ({| _template := Some template;
             _segments := Some segs;
             _formatterMap := _formatterMap this |}, Done tt).
Proof.
  destruct (parse_spec template) as (toks & raw & _ & _ & Hp).
  eexists. split; [exact Hp|]. unfold setTemplateString. by rewrite Hp.
Qed.



Lemma formatHtml_no_getErrorMessage (formatterMap : gmap string FieldFormatter.t)
    (segs : list Segment) :
  countIf isGetErrorMessageCall
          (concat (map snd (map (formatHtmlSegment he_encode formatterMap) segs))) = 0.
Proof.
  induction segs as [|seg segs IH]; [done|].
  cbn [map concat]. rewrite countIf_app, IH, Nat.add_0_r.
  destruct seg as [t s e | ns key' s e | t err s e]; cbn [formatHtmlSegment];
    [done | | done].
  by destruct (formatterMap !! toLowerCase ns).
Qed.

(** What the diagnostic render shows for a Field segment whose namespace
    has a formatter, and the calls it makes for it. *)
Lemma diagnostic_field (formatterMap : gmap string FieldFormatter.t)
    (ns key : string) (s e : nat) (formatter : FieldFormatter.t) :
  formatterMap !! toLowerCase ns = Some formatter ->
  formatDiagnosticHtmlSegment he_encode formatterMap (FieldSegment ns key s e)
  = match FieldFormatter.getErrorMessage formatter key with
    | Some errorMsg =>
        (spanOpen "segment_error" +:+ errorMsg +:+ spanClose,
         [GetErrorMessageCall (toLowerCase ns) key])
    | None =>
        (spanOpen "segment_field"
           +:+ FieldFormatter.formatHtml formatter key +:+ spanClose,
         [GetErrorMessageCall (toLowerCase ns) key;
          FormatHtmlCall (toLowerCase ns) key])
    end.
Proof.
  intros Hf. cbn [formatDiagnosticHtmlSegment]. rewrite Hf.
  by destruct (FieldFormatter.getErrorMessage formatter key).
Qed.

(** C10. [formatHtml] never calls [getErrorMessage]: its record of calls
    holds none. For a Field segment whose namespace has a formatter, what
    [formatHtml] returns is: the render of the segments before it, then
    [formatter.formatHtml key], then the render of the segments after it,
    with exactly one call, of [formatHtml], for the segment; and this whatever
    [getErrorMessage key] would be. What [formatDiagnosticHtml] returns for
    the same object has in that place, when [getErrorMessage key] is a
    message, the message in a [segment_error] span, with the one call of
    [getErrorMessage]; and when it is [null], the value
    [formatter.formatHtml key] in a [segment_field] span, with the call of
    [getErrorMessage] and then that of [formatHtml]. The render of no segment
    is the empty string, with no call. *)
Theorem plain_render_ignores_error_messages (this : TemplateString)
    (segs : list Segment) :
  _segments this = Some segs ->
  (exists html calls,
      formatHtml he_encode this = Done (html, calls)
      /\ countIf isGetErrorMessageCall calls = 0
      /\ forall ns key, GetErrorMessageCall ns key ∉ calls)
  /\ (formatHtml he_encode (withSegments [] this) = Done ("", [])
      /\ formatDiagnosticHtml he_encode (withSegments [] this) = Done ("", []))
  /\ (forall before after ns key s e formatter,
         segs = before ++ FieldSegment ns key s e :: after ->
         _formatterMap this !! toLowerCase ns = Some formatter ->
         (formatHtmlSegment he_encode (_formatterMap this) (FieldSegment ns key s e)
          = (FieldFormatter.formatHtml formatter key,
             [FormatHtmlCall (toLowerCase ns) key])
          /\ formatDiagnosticHtmlSegment he_encode (_formatterMap this)
               (FieldSegment ns key s e)
             = match FieldFormatter.getErrorMessage formatter key with
               | Some errorMsg =>
                   (spanOpen "segment_error" +:+ errorMsg +:+ spanClose,
                    [GetErrorMessageCall (toLowerCase ns) key])
               | None =>
                   (spanOpen "segment_field"
                      +:+ FieldFormatter.formatHtml formatter key +:+ spanClose,
                    [GetErrorMessageCall (toLowerCase ns) key;
                     FormatHtmlCall (toLowerCase ns) key])
               end)
         /\ (exists htmlBefore callsBefore htmlAfter callsAfter,
                formatHtml he_encode (withSegments before this)
                = Done (htmlBefore, callsBefore)
                /\ formatHtml he_encode (withSegments after this)
                   = Done (htmlAfter, callsAfter)
                /\ formatHtml he_encode this
                   = Done (htmlBefore +:+ FieldFormatter.formatHtml formatter key
                             +:+ htmlAfter,
                           callsBefore ++ [FormatHtmlCall (toLowerCase ns) key]
                             ++ callsAfter))
         /\ (exists htmlBefore callsBefore htmlAfter callsAfter,
                formatDiagnosticHtml he_encode (withSegments before this)
                = Done (htmlBefore, callsBefore)
                /\ formatDiagnosticHtml he_encode (withSegments after this)
                   = Done (htmlAfter, callsAfter)
                /\ formatDiagnosticHtml he_encode this
                   = match FieldFormatter.getErrorMessage formatter key with
                     | Some errorMsg =>
                         Done (htmlBefore
                                 +:+ (spanOpen "segment_error" +:+ errorMsg
                                        +:+ spanClose)
                                 +:+ htmlAfter,
                               callsBefore
                                 ++ [GetErrorMessageCall (toLowerCase ns) key]
                                 ++ callsAfter)
                     | None =>
                         Done (htmlBefore
                                 +:+ (spanOpen "segment_field"
                                        +:+ FieldFormatter.formatHtml formatter key
                                        +:+ spanClose)
                                 +:+ htmlAfter,
                               callsBefore
                                 ++ [GetErrorMessageCall (toLowerCase ns) key;
                                     FormatHtmlCall (toLowerCase ns) key]
                                 ++ callsAfter)
                     end)).
Proof.
  intros Hsegs. split; [|split].
  - unfold formatHtml. rewrite (renderWith_segments _ _ _ Hsegs).
    eexists _, _. split; [done|].
    pose proof (formatHtml_no_getErrorMessage (_formatterMap this) segs) as Hcount.
    split; [done|].
    intros ns key Hin.
    set (calls := concat _) in *.
    assert (Hpos : 0 < countIf isGetErrorMessageCall calls); [|lia].
    unfold countIf.
    assert (Hf : List.In (GetErrorMessageCall ns key)
                   (List.filter isGetErrorMessageCall calls)).
    { apply List.filter_In. split; [by apply list_elem_of_In | done]. }
    destruct (List.filter isGetErrorMessageCall calls); [done | cbn; lia].
  - done.
  - intros before after ns key s e formatter -> Hf.
    assert (Hplain : formatHtmlSegment he_encode (_formatterMap this)
                       (FieldSegment ns key s e)
                     = (FieldFormatter.formatHtml formatter key,
                        [FormatHtmlCall (toLowerCase ns) key])).
    { cbn [formatHtmlSegment]. by rewrite Hf. }
    pose proof (diagnostic_field (_formatterMap this) ns key s e formatter Hf) as Hdiag.
    split; [by split|]. split.
    + unfold formatHtml. cbn [withSegments _formatterMap].
      rewrite (renderWith_segments _ (withSegments before this) before) by done.
      rewrite (renderWith_segments _ (withSegments after this) after) by done.
      rewrite (renderWith_segments _ _ _ Hsegs).
      destruct (render_middle (formatHtmlSegment he_encode (_formatterMap this))
                  before (FieldSegment ns key s e) after) as [-> ->].
      rewrite Hplain. cbn [fst snd]. by eexists _, _, _, _.
    + unfold formatDiagnosticHtml. cbn [withSegments _formatterMap].
      rewrite (renderWith_segments _ (withSegments before this) before) by done.
      rewrite (renderWith_segments _ (withSegments after this) after) by done.
      rewrite (renderWith_segments _ _ _ Hsegs).
      destruct (render_middle (formatDiagnosticHtmlSegment he_encode (_formatterMap this))
                  before (FieldSegment ns key s e) after) as [-> ->].
      rewrite Hdiag. eexists _, _, _, _. split; [done|]. split; [done|].
      by destruct (FieldFormatter.getErrorMessage formatter key).
Qed.

End RenderingFacts.

(** * Instances *)

Lemma unknown_dropped_or_marked_witness :
  let this := fst (setTemplateString "a${x:y}b" newTemplateString) in
  let this' := fst (setTemplateString "a${oops" newTemplateString) in
  (formatHtmlSegment noEscape (_formatterMap this) (FieldSegment "x" "y" 1 7) = ("", [])
   /\ (exists html calls,
          formatHtml noEscape this = Done (html, calls)
          /\ formatHtml noEscape
               (withSegments ([TextSegment "a" 0 1] ++ [TextSegment "b" 7 8]) this)
             = Done (html, calls))
   /\ (exists html calls,
          formatDiagnosticHtml noEscape this = Done (html, calls)
          /\ contains html ("Unknown '" +:+ "x")))
  /\ (formatHtmlSegment noEscape (_formatterMap this') (ErrorSegment "${oops" "" 1 7)
      = ("", [])
      /\ (exists html calls,
             formatHtml noEscape this' = Done (html, calls)
             /\ formatHtml noEscape (withSegments ([TextSegment "a" 0 1] ++ []) this')
                = Done (html, calls))
      /\ (exists html calls,
             formatDiagnosticHtml noEscape this' = Done (html, calls)
             /\ contains html ("Unknown '" +:+ "${oops"))).
Proof.
  intros this this'. split.
  - apply (proj1 (unknown_dropped_or_marked noEscape this
                    [TextSegment "a" 0 1] [TextSegment "b" 7 8]) "x" "y" 1 7);
      reflexivity.
  - apply (proj2 (unknown_dropped_or_marked noEscape this'
                    [TextSegment "a" 0 1] []) "${oops" "" 1 7);
      reflexivity.
Defined.


Lemma plain_render_ignores_error_messages_witness :
  let this := fst (setTemplateString "x ${foo:bar}!"
                     (addFormatter "Foo" boldFormatter newTemplateString)) in
  FieldFormatter.getErrorMessage boldFormatter "bar" = Some "no such key"
  /\ (exists htmlBefore callsBefore htmlAfter callsAfter,
         formatHtml noEscape (withSegments [TextSegment "x " 0 2] this)
         = Done (htmlBefore, callsBefore)
         /\ formatHtml noEscape (withSegments [TextSegment "!" 12 13] this)
            = Done (htmlAfter, callsAfter)
         /\ formatHtml noEscape this
            = Done (htmlBefore +:+ FieldFormatter.formatHtml boldFormatter "bar"
                      +:+ htmlAfter,
                    callsBefore ++ [FormatHtmlCall (toLowerCase "foo") "bar"]
                      ++ callsAfter)).
Proof.
  intros this. split; [reflexivity|].
  apply (proj2 (proj2 (plain_render_ignores_error_messages noEscape this
                         [TextSegment "x " 0 2; FieldSegment "foo" "bar" 2 12;
                          TextSegment "!" 12 13] eq_refl))
           [TextSegment "x " 0 2] [TextSegment "!" 12 13] "foo" "bar" 2 12
           boldFormatter eq_refl eq_refl).
Defined.

(** The example of the specification, and the two renders of a template
    with a registered namespace whose formatter reports an error. *)
Example parse_example :
  _parse "Hello ${user:name}, balance: \$${acct:bal}" =
  Done [TextSegment "Hello " 0 6; FieldSegment "user" "name" 6 18;
        TextSegment ", balance: $" 18 31; FieldSegment "acct" "bal" 31 42].
Proof. vm_compute. reflexivity. Qed.

Example render_example :
  let this := fst (setTemplateString "x ${FOO:bar}"
                     (addFormatter "Foo" boldFormatter newTemplateString)) in
  formatHtml noEscape this
  = Done ("x <b>bar</b>", [FormatHtmlCall "foo" "bar"])
  /\ formatDiagnosticHtml noEscape this
     = Done (spanOpen "segment_text" +:+ "x " +:+ spanClose
             +:+ spanOpen "segment_error" +:+ "no such key" +:+ spanClose,
             [GetErrorMessageCall "foo" "bar"]).
Proof. split; vm_compute; reflexivity. Qed.

(** * More on the lexer *)

Lemma matchMany_symbol_class (s : string) :
  occurs ":" (matchMany symbolClass s) = false
  /\ occurs "}" (matchMany symbolClass s) = false.
Proof.
  induction s as [|c s [IH1 IH2]]; [done|]. cbn [matchMany].
  destruct (inClass symbolClass c) eqn:E; [|done].
  cbn [occurs]. rewrite IH1, IH2, !orb_false_r.
  unfold inClass, symbolClass, charIn in E. cbn in E.
  rewrite orb_false_r in E. apply negb_true_iff, orb_false_iff in E. done.
Qed.

(** A run stops where the class stops. *)
Lemma matchMany_maximal (cl : CharClass) (s : string) :
  matchMany cl (slice (String.length (matchMany cl s)) s) = "".
Proof.
  induction s as [|c s IH]; [done|]. cbn [matchMany].
  destruct (inClass cl c) eqn:E; cbn [String.length slice]; [done|].
  cbn [matchMany]. by rewrite E.
Qed.

(** One step of the lexer: the type and text of the token, the next state,
    and, after a SYMBOL, that no SYMBOL rule matches what is left. *)
Lemma lexed_step_facts (state : LexerState) (input : string) rule m :
  firstMatch (LexerStateRules state) input = Some (rule, m) ->
  let tok := {| type := ruleType rule; text := m |} in
  tokenShape tok
  /\ producedIn state (ruleType rule) = true
  /\ newState rule = stateAfter (ruleType rule)
  /\ (ruleType rule = SYMBOL ->
      matchMany symbolClass (slice (String.length m) input) = "").
Proof.
  intros Hm tok. subst tok. unfold tokenShape. cbn [type text].
  destruct state; cbn [LexerStateRules] in Hm.
  - destruct (normal_step_cases _ _ _ Hm)
      as [(-> & -> & ->) | [(-> & -> & ->) | [(-> & -> & -> & Hne)
           | [(-> & -> & -> & _) | (-> & -> & -> & _)]]]];
      repeat split; try done; auto.
    right; right. split; [done|]. apply matchMany_text_class.
  - destruct (field_step_cases _ _ _ Hm)
      as [(-> & -> & -> & Hne) | [(-> & -> & -> & _) | (-> & -> & -> & _)]];
      repeat split; try done; try apply matchMany_symbol_class.
    intros _. apply matchMany_maximal.
Qed.

Lemma lexed_shapes (state : LexerState) (input : string) (toks : list Token) :
  lexed state input toks -> Forall tokenShape toks.
Proof.
  induction 1 as [|state input rule m tokens Hne Hm _ IH]; [done|].
  constructor; [|done]. by apply (lexed_step_facts _ _ _ _ Hm).
Qed.

Lemma lexed_head_produced (state : LexerState) (input : string) tok toks :
  lexed state input (tok :: toks) -> producedIn state (type tok) = true.
Proof.
  inversion 1 as [|? ? rule m tokens Hne Hm _]; subst.
  by apply (lexed_step_facts _ _ _ _ Hm).
Qed.

Lemma lexed_chained (state : LexerState) (input : string) (toks : list Token) :
  lexed state input toks -> chained toks.
Proof.
  induction 1 as [|state input rule m tokens Hne Hm Hrest IH]; [done|].
  cbn [chained]. destruct tokens as [|b tokens]; [done|]. split; [|done].
  destruct (lexed_step_facts _ _ _ _ Hm) as (_ & _ & Hst & Hsym).
  pose proof (lexed_head_produced _ _ _ _ Hrest) as Hb. rewrite Hst in Hb.
  unfold mayFollow. cbn [type]. rewrite Hb. cbn [andb].
  destruct (TokenType_eqb (ruleType rule) SYMBOL) eqn:Ea; [|done].
  destruct (TokenType_eqb (type b) SYMBOL) eqn:Eb; [|done].
  apply TokenType_eqb_eq in Ea, Eb. exfalso.
  specialize (Hsym Ea).
  inversion Hrest as [|? ? rule' m' tokens' Hne' Hm' _]; subst.
  rewrite Hst, Ea in Hm'. cbn [stateAfter LexerStateRules] in Hm'.
  cbn [type] in Eb.
  destruct (field_step_cases _ _ _ Hm')
    as [(_ & _ & Hmm & Hne2) | [(Hty & _) | (Hty & _)]]; try congruence.
Qed.

(** X1. Lexing loses nothing: the texts of the tokens of [lex input], one
    after the other, spell [input]. *)
Theorem lex_round_trip (input : string) :
  exists toks, lex input = Done toks /\ join (map text toks) = input.
Proof.
  destruct (lexed_exists NORMAL input) as (toks & H).
  exists toks. split; [by apply lex_lexed | by apply lexed_texts in H].
Qed.

(** X2. Every token of [lex input] has the text that goes with its type:
    [${], [\$], [:] and [}] for the four fixed ones; for a STRING a lone [$],
    a lone [\], or a non-empty run without [$] and [\]; for a SYMBOL a
    non-empty run without [:] and [}]. No token is empty and none has the
    type EOF. *)
Theorem lex_token_shapes (input : string) :
  exists toks, lex input = Done toks /\ Forall tokenShape toks.
Proof.
  destruct (lexed_exists NORMAL input) as (toks & H).
  exists toks. split; [by apply lex_lexed | by eapply lexed_shapes].
Qed.

(** X3. The order of the tokens of [lex input] follows the two states: the
    first token is a STRING, ESCAPE_DOLLAR or OPEN_BRACKET; after a STRING,
    ESCAPE_DOLLAR or CLOSE_BRACKET comes one of these three again; after an
    OPEN_BRACKET or COLON comes a SYMBOL, COLON or CLOSE_BRACKET; after a
    SYMBOL comes a COLON or CLOSE_BRACKET, never another SYMBOL. *)
Theorem lex_token_order (input : string) :
  exists toks,
    lex input = Done toks
    /\ (toks = [] \/ producedIn NORMAL (headType toks) = true)
    /\ chained toks.
Proof.
  destruct (lexed_exists NORMAL input) as (toks & H).
  exists toks. split; [by apply lex_lexed|]. split; [|by eapply lexed_chained].
  destruct toks as [|tok toks]; [by left | right]. cbn [headType].
  by apply (lexed_head_produced _ _ _ _ H).
Qed.

(** * More on the segments of a parse *)

Lemma lexed_next_state (state : LexerState) (input : string) tok toks :
  lexed state input (tok :: toks) ->
  exists input', lexed (stateAfter (type tok)) input' toks.
Proof.
  inversion 1 as [|? ? rule m tokens Hne Hm Hrest]; subst. cbn [type].
  destruct (lexed_step_facts _ _ _ _ Hm) as (_ & _ & <- & _). by eexists.
Qed.

Lemma NormalLexed_nil : NormalLexed [].
Proof. exists "". constructor. Qed.

Lemma NormalLexed_Lexed (l : list Token) : NormalLexed l -> Lexed l.
Proof. intros [input H]. by exists NORMAL, input. Qed.

(** A token that stops a run of non-text tokens was produced in the NORMAL
    state. *)
Lemma Lexed_text_head (tok : Token) (l : list Token) :
  Lexed (tok :: l) -> isBad tok = false -> NormalLexed (tok :: l) /\ isText tok = true.
Proof.
  intros (state & input & H) Hbad.
  pose proof (lexed_head_produced _ _ _ _ H) as Hp.
  unfold isBad, isText in *.
  destruct state, (type tok) eqn:Ety; try done; split; try done; by exists input.
Qed.

Lemma textPhase_normal (l : list Token) :
  NormalLexed l -> NormalLexed (drop (snd (textPhase l)) l).
Proof.
  unfold textPhase. cbn [snd]. intros [input H].
  remember NORMAL as state eqn:Hst. revert Hst.
  induction H as [|state input rule m tokens Hne Hm Hrest IH]; intros ->.
  - apply NormalLexed_nil.
  - cbn [run]. destruct (isText _) eqn:Et; cbn [length drop].
    + apply IH. destruct (lexed_step_facts _ _ _ _ Hm) as (_ & _ & -> & _).
      unfold isText in Et. cbn [type] in Et. by destruct (ruleType rule).
    + exists input. by econstructor.
Qed.

Lemma fieldPhase_normal (l : list Token) :
  NormalLexed l -> NormalLexed (drop (snd (fieldPhase l)) l).
Proof.
  intros HN. unfold fieldPhase.
  destruct (TokenType_eqb (headType l) EOF); [done|].
  destruct (typesMatch fieldTokenTypeList l) eqn:Em.
  - apply typesMatch_field in Em
      as (t0 & t1 & t2 & t3 & t4 & rest & -> & _ & _ & _ & _ & H4).
    cbn [snd drop]. destruct HN as [input H].
    apply lexed_next_state in H as [? H]. apply lexed_next_state in H as [? H].
    apply lexed_next_state in H as [? H]. apply lexed_next_state in H as [? H].
    apply lexed_next_state in H as [input' H]. rewrite H4 in H. by exists input'.
  - cbn [snd]. pose proof (run_stops isBad l) as Hstop.
    pose proof (Lexed_drop (length (run isBad l)) l (NormalLexed_Lexed l HN)) as HL.
    destruct (drop (length (run isBad l)) l) as [|tok r]; [apply NormalLexed_nil|].
    by apply Lexed_text_head.
Qed.

Lemma textPhase_segments (l : list Token) :
  fst (textPhase l) = []
  \/ exists t w, fst (textPhase l) = [TextSegment t 0 w] /\ t <> "".
Proof.
  unfold textPhase. cbn [fst].
  destruct (String.length (join (map decoded (run isText l))) =? 0) eqn:E; [by left|].
  right. eexists _, _. split; [done|]. intros Ht. by rewrite Ht in E.
Qed.

(** After the text phase, from the NORMAL state: nothing is left, or an
    OPEN_BRACKET comes next. *)
Lemma after_text_open (l : list Token) :
  NormalLexed l -> run isText l = [] ->
  l = [] \/ exists tok r, l = tok :: r /\ type tok = OPEN_BRACKET /\ text tok = "${".
Proof.
  intros [input H] Hrun. destruct l as [|tok r]; [by left | right].
  exists tok, r. split; [done|].
  pose proof (lexed_head_produced _ _ _ _ H) as Hp.
  apply lexed_tokenOK, Forall_cons in H as [Hok _].
  cbn [run] in Hrun. unfold isText, tokenOK in *.
  destruct (type tok); try done.
Qed.

Lemma fieldPhase_segments (l : list Token) :
  NormalLexed l -> run isText l = [] ->
  (l = [] /\ fieldPhase l = ([], 0))
  \/ exists seg, fst (fieldPhase l) = [seg] /\ segmentOK seg
                 /\ isTextSegment seg = false
                 /\ (isErrorSegment seg = true ->
                     snd (fieldPhase l) = length (run isBad l)).
Proof.
  intros HN Hrun.
  destruct (after_text_open l HN Hrun) as [-> | (tok & r & -> & Hty & Htx)];
    [by left | right].
  destruct HN as [input H]. pose proof (lexed_shapes _ _ _ H) as Hsh.
  unfold fieldPhase. cbn [headType]. rewrite Hty. cbn [TokenType_eqb].
  destruct (typesMatch fieldTokenTypeList (tok :: r)) eqn:Em.
  - apply typesMatch_field in Em
      as (t0 & t1 & t2 & t3 & t4 & rest & [= -> ->] & _ & H1 & _ & H3 & _).
    rewrite !Forall_cons in Hsh. destruct Hsh as (_ & S1 & _ & S3 & _).
    unfold tokenShape in S1, S3. rewrite H1 in S1. rewrite H3 in S3.
    eexists. split; [done|]. split; [by split|]. by split.
  - eexists. split; [done|]. split; [|by split].
    cbn [segmentOK]. split; [|done].
    cbn [run]. unfold isBad at 1. rewrite Hty. cbn [includes existsb nonFieldTypes
      TokenType_eqb orb negb]. rewrite texts_cons, Htx. by eexists.
Qed.

Lemma parsed_nil (segs : list Segment) : parsed [] segs -> segs = [].
Proof. inversion 1; [done|]. cbn in *. congruence. Qed.

Lemma run_text_drop (l : list Token) :
  run isText (drop (length (run isText l)) l) = [].
Proof.
  pose proof (run_stops isText l) as H.
  destruct (drop (length (run isText l)) l) as [|tok r]; [done|].
  by apply run_cons_false.
Qed.

Lemma alternates_cons (a : Segment) (segs : list Segment) :
  alternates (a :: segs) <->
  match segs with b :: _ => link a b | [] => True end /\ alternates segs.
Proof. cbn. destruct segs; tauto. Qed.

(** The segments that the loop adds, from the NORMAL state. *)
Lemma parsed_well_formed (l : list Token) (segs : list Segment) :
  parsed l segs -> NormalLexed l ->
  Forall segmentOK segs /\ alternates segs
  /\ (forall tok r, l = tok :: r -> isText tok = true ->
      exists seg segs', segs = seg :: segs' /\ isTextSegment seg = true).
Proof.
  induction 1 as [l Hl | l l1 l2 segs Hl -> -> Hp IH]; intros HN.
  - rewrite (Lexed_headType l (NormalLexed_Lexed l HN) Hl). repeat split; try done.
  - set (l1 := drop (snd (textPhase l)) l) in *.
    set (l2 := drop (snd (fieldPhase l1)) l1) in *.
    assert (HN1 : NormalLexed l1) by by apply textPhase_normal.
    assert (HN2 : NormalLexed l2) by by apply fieldPhase_normal.
    assert (Hrun1 : run isText l1 = []) by apply run_text_drop.
    destruct (IH HN2) as (IHok & IHalt & IHhead).
    assert (HT : Forall segmentOK (fst (textPhase l))
                 /\ Forall (fun seg => isTextSegment seg = true) (fst (textPhase l))
                 /\ length (fst (textPhase l)) <= 1).
    { destruct (textPhase_segments l) as [-> | (t & w & -> & Ht)];
        repeat split; cbn [length]; try lia; by repeat constructor. }
    destruct HT as (HTok & HTtext & HTlen).
    (* the head of the segments when the next token is a text token *)
    assert (Hhead : forall tok r, l = tok :: r -> isText tok = true ->
              exists t w, fst (textPhase l) = [TextSegment t 0 w]).
    { intros tok r -> Ht.
      destruct (textPhase_segments (tok :: r)) as [Hnil | (t & w & -> & _)];
        [|by eexists _, _].
      exfalso. unfold textPhase in Hnil. cbn [fst] in Hnil.
      destruct (String.length (join (map decoded (run isText (tok :: r)))) =? 0) eqn:E;
        [|done].
      apply Nat.eqb_eq, length_zero_iff in E.
      apply decoded_run_empty in E.
      - cbn [run] in E. by rewrite Ht in E.
      - apply run_sublist_Forall, Lexed_tokenOK, NormalLexed_Lexed, HN.
      - apply run_Forall. }
    destruct (fieldPhase_segments l1 HN1 Hrun1)
      as [[El1 Ef] | (x & Ex & Hxok & Hxtext & Hxerr)].
    + (* nothing is left after the text phase *)
      assert (segs = []) as ->.
      { apply parsed_nil. subst l2. by rewrite El1 in Hp. }
      rewrite Ef. cbn [fst]. rewrite !app_nil_r.
      split; [done|]. split.
      * destruct (fst (textPhase l)) as [|a [|b ?]]; cbn in *; try done; lia.
      * intros tok r El Ht. destruct (Hhead tok r El Ht) as (t & w & ->).
        by eexists _, _.
    + rewrite Ex.
      assert (Hx : alternates (x :: segs)).
      { apply alternates_cons. split; [|done].
        destruct segs as [|b segs]; [done|]. split; [by rewrite Hxtext|].
        intros Herr. specialize (Hxerr Herr).
        pose proof (run_stops isBad l1) as Hstop.
        assert (El2 : l2 = drop (length (run isBad l1)) l1)
          by (subst l2; by rewrite Hxerr).
        rewrite <- El2 in Hstop.
        destruct l2 as [|tok r] eqn:E2.
        - by apply parsed_nil in Hp.
        - destruct (Lexed_text_head tok r) as [_ Ht];
            [by apply NormalLexed_Lexed | done |].
          destruct (IHhead tok r eq_refl Ht) as (seg & segs' & [= -> ->] & Hs).
          done. }
      split; [|split].
      * apply Forall_app. split; [done|]. by constructor.
      * destruct (fst (textPhase l)) as [|a [|? ?]]; cbn [length] in HTlen; try lia.
        -- done.
        -- cbn [app]. apply alternates_cons. split; [|done].
           split; [by rewrite Hxtext|].
           apply Forall_cons in HTtext as [Ha _]. destruct a; done.
      * intros tok r El Ht. destruct (Hhead tok r El Ht) as (t & w & ->).
        by eexists _, _.
Qed.

Lemma Forall_correctColumns (P : Segment -> Prop) (segs : list Segment) :
  (forall seg i j, P seg -> P (setEndColumn j (setStartColumn i seg))) ->
  Forall P segs -> forall i, Forall P (correctColumns i segs).
Proof.
  intros HP. induction 1 as [|seg segs Hseg _ IH]; intros i; cbn; [done|].
  constructor; [by apply HP | apply IH].
Qed.

Lemma alternates_correctColumns (segs : list Segment) :
  alternates segs -> forall i, alternates (correctColumns i segs).
Proof.
  induction segs as [|a segs IH]; intros Halt i; [done|].
  apply alternates_cons in Halt as [Hlink Halt].
  cbn [correctColumns]. apply alternates_cons. split; [|by apply IH].
  destruct segs as [|b segs]; [done|]. cbn [correctColumns].
  destruct a, b; exact Hlink.
Qed.

Lemma parse_well_formed (template : string) :
  exists segs, _parse template = Done segs
               /\ Forall segmentOK segs /\ alternates segs.
Proof.
  destruct (parse_spec template) as (toks & raw & Hlex & Hp & ->).
  destruct (parsed_well_formed toks raw Hp) as (Hok & Halt & _); [by exists template|].
  eexists. split; [done|]. split.
  - apply Forall_correctColumns; [|done]. by intros [] ? ?.
  - by apply alternates_correctColumns.
Qed.

(** X4. Whatever the template, the segments of [_parse] are well formed: no
    Text segment is empty; the namespace and the key of every Field segment
    are non-empty and hold neither [:] nor [}]; the text of every Error
    segment starts with [${], and its error message is empty. *)
Theorem segments_well_formed (template : string) :
  exists segs, _parse template = Done segs /\ Forall segmentOK segs.
Proof.
  destruct (parse_well_formed template) as (segs & H & Hok & _). by exists segs.
Qed.

(** X5. Whatever the template, in the segments of [_parse] no Text segment
    comes right after a Text segment, and what comes right after an Error
    segment is a Text segment: a malformed field takes in everything up to
    the next text, well-formed fields included. *)
Theorem segments_alternate (template : string) :
  exists segs, _parse template = Done segs /\ alternates segs.
Proof.
  destruct (parse_well_formed template) as (segs & H & _ & Halt). by exists segs.
Qed.

(** * Spans *)

(** Reading escapes shortens a text, to no less than half. *)
Lemma unescape_length (s : string) :
  String.length (unescape s) <= String.length s
  /\ String.length s <= 2 * String.length (unescape s).
Proof.
  enough (H : (String.length (unescape s) <= String.length s
               /\ String.length s <= 2 * String.length (unescape s))
              /\ forall c, String.length (unescape (String c s)) <= String.length (String c s)
                           /\ String.length (String c s)
                              <= 2 * String.length (unescape (String c s)))
    by apply H.
  induction s as [|d s [IH1 IH2]].
  - split; [cbn; lia|]. intros c. cbn. lia.
  - split; [apply IH2|]. intros c. rewrite unescape_cons2.
    destruct (Ascii.eqb c "\" && Ascii.eqb d "$").
    + cbn [String.length]. lia.
    + specialize (IH2 d). cbn [String.length] in *. lia.
Qed.

Lemma covers_forward (segs : list Segment) :
  forall from to, covers from segs to ->
    Forall (fun seg => startColumn seg <= endColumn seg) segs.
Proof.
  induction segs as [|seg segs IH]; intros from to; cbn [covers]; [done|].
  intros (_ & Hle & Hc). constructor; [done | by eapply IH].
Qed.

(** X6. Whatever the template, the span of each segment of [_parse] is fixed
    by what the segment holds: a Field segment spans the lengths of its
    namespace and key plus 4 (for [${], [:] and [}]); an Error segment spans
    the length of its text; a Text segment spans at least the length of its
    text and at most twice that (each character of the text stands for one
    source character, or for the two of an escape). *)
Theorem segment_spans (template : string) :
  exists segs, _parse template = Done segs /\ Forall spanOK segs.
Proof.
  destruct (parse_located template) as (segs & Hp & Hc & Hl).
  exists segs. split; [done|].
  apply covers_forward in Hc.
  rewrite Forall_forall in Hc, Hl. apply Forall_forall. intros seg Hin.
  specialize (Hc seg Hin). destruct (Hl seg Hin) as [Hchunk Hlen].
  cbn zeta in Hchunk, Hlen.
  destruct seg as [t s e | ns key s e | t err s e]; cbn in *.
  - pose proof (unescape_length (substring s (e - s) template)) as [H1 H2].
    rewrite <- Hchunk in H1, H2. lia.
  - rewrite Hchunk in Hlen. cbn in Hlen. rewrite length_append in Hlen.
    cbn in Hlen. rewrite length_append in Hlen. cbn in Hlen. lia.
  - rewrite Hchunk in Hlen. lia.
Qed.

(** * Templates without a brace *)

Lemma lexed_all_text (state : LexerState) (input : string) (toks : list Token) :
  lexed state input toks ->
  state = NORMAL -> occurs "{" input = false ->
  Forall (fun tok => isText tok = true) toks.
Proof.
  induction 1 as [|state input rule m tokens Hne Hm _ IH]; intros -> Hno; [done|].
  pose proof (firstMatch_prefix _ _ _ _ Hm) as (Hpre & _).
  pose proof Hno as Hno0.
  rewrite Hpre, occurs_append in Hno. apply orb_false_iff in Hno as [Hnom Hno].
  unfold isText. cbn [type].
  destruct (normal_step_cases _ _ _ Hm)
    as [(_ & _ & ->) | [(-> & Hst & _) | [(-> & Hst & _)
         | [(-> & Hst & _) | (-> & Hst & _)]]]];
    [done | constructor; [done | by apply IH] ..].
Qed.

Lemma parsed_all_text (toks : list Token) :
  toks <> [] -> Forall tokenOK toks -> Forall (fun tok => isText tok = true) toks ->
  parsed toks [TextSegment (join (map decoded toks)) 0 (sum_list (map width toks))].
Proof.
  intros Hne Hok Htext.
  assert (Ht : textPhase toks
               = ([TextSegment (join (map decoded toks)) 0 (sum_list (map width toks))],
                  length toks)).
  { unfold textPhase. rewrite run_all by done.
    destruct (String.length (join (map decoded toks)) =? 0) eqn:E; [|done].
    apply Nat.eqb_eq, length_zero_iff in E. by apply decoded_run_empty in E. }
  pose proof (parsed_iter toks [] [] [] ) as Hiter.
  rewrite Ht in Hiter. cbn [fst snd app] in Hiter.
  replace (fst (fieldPhase [])) with (@nil Segment) in Hiter by done.
  apply Hiter.
  - destruct toks as [|tok toks]; [done|]. cbn [headType].
    apply Forall_cons in Hok as [Hok _]. unfold tokenOK in Hok. by intros Hty; rewrite Hty in Hok.
  - by rewrite drop_all.
  - done.
  - by constructor.
Qed.

Lemma parse_brace_free (template : string) :
  occurs "{" template = false ->
  _parse template =
  Done match template with
       | EmptyString => []
       | _ => [TextSegment (unescape template) 0 (String.length template)]
       end.
Proof.
  intros Hno. destruct template as [|c s] eqn:Et; [done|]. rewrite <- Et in *.
  destruct (lexed_exists NORMAL template) as (toks & Hlex).
  pose proof (lexed_all_text _ _ _ Hlex eq_refl Hno) as Htext.
  pose proof (lexed_tokenOK _ _ _ Hlex) as Hok.
  pose proof (lexed_texts _ _ _ Hlex) as Hspell.
  assert (Hne : toks <> []).
  { intros ->. cbn in Hspell. congruence. }
  rewrite (parse_intro _ _ _ Hlex (parsed_all_text toks Hne Hok Htext)).
  cbn [correctColumns setStartColumn setEndColumn endColumn]. cbn [Nat.add].
  pose proof (text_run_unescape _ _ _ Hlex) as Hun. rewrite run_all in Hun by done.
  rewrite <- Hun, Hspell, (width_text_run toks Hok Htext), Hspell. done.
Qed.

(** X7. A template in which [{] does not occur has no field: when it is not
    empty, [_parse] returns exactly one Text segment, which spans the whole
    template and whose text is the template with its escapes read; the empty
    template gives no segment. *)
Theorem parse_without_brace (template : string) :
  occurs "{" template = false ->
  _parse template =
  Done match template with
       | EmptyString => []
       | _ => [TextSegment (unescape template) 0 (String.length template)]
       end.
Proof. apply parse_brace_free. Qed.

Lemma parse_without_brace_witness :
  _parse "cost: \$5 }" = Done [TextSegment "cost: $5 }" 0 11].
Proof. apply (parse_without_brace "cost: \$5 }"). reflexivity. Defined.

(** * The template object *)

Lemma toLowerCaseChar_idempotent (c : ascii) :
  toLowerCaseChar (toLowerCaseChar c) = toLowerCaseChar c.
Proof. destruct c as [[] [] [] [] [] [] [] []]; vm_compute; reflexivity. Qed.

Lemma toLowerCase_idempotent (s : string) : toLowerCase (toLowerCase s) = toLowerCase s.
Proof.
  induction s as [|c s IH]; [done|]. cbn [toLowerCase].
  by rewrite toLowerCaseChar_idempotent, IH.
Qed.

Lemma setTemplateString_fields (template : string) (this : TemplateString) :
  exists segs,
    _parse template = Done segs
    /\ snd (setTemplateString template this) = Done tt
    /\ _template (fst (setTemplateString template this)) = Some template
    /\ _segments (fst (setTemplateString template this)) = Some segs
    /\ _formatterMap (fst (setTemplateString template this)) = _formatterMap this.
Proof.
  destruct (setTemplateString_spec template this) as (segs & Hp & ->).
  by exists segs.
Qed.

Lemma reachable_invariant (this : TemplateString) :
  reachable this ->
  segmentsInSync this
  /\ forall k f, _formatterMap this !! k = Some f -> toLowerCase k = k.
Proof.
  induction 1 as [|template this _ [IH1 IH2] | namespace formatter this _ [IH1 IH2]].
  - split; [done|]. intros k f. cbn. by rewrite lookup_empty.
  - destruct (setTemplateString_fields template this) as (segs & Hp & _ & Ht & Hs & Hm).
    unfold segmentsInSync. rewrite Ht, Hs, Hm. by split.
  - split; [exact IH1|]. intros k f. cbn [addFormatter _formatterMap].
    destruct (decide (toLowerCase namespace = k)) as [<-|Hne].
    + intros _. apply toLowerCase_idempotent.
    + rewrite lookup_insert_ne by done. apply IH2.
Qed.

(** X8. Whatever calls of [setTemplateString] and [addFormatter] have been
    made on a new object, its segments are the parse of its template (or
    neither has been set), and every key of its formatter map is in lower
    case. *)
Theorem object_invariant (this : TemplateString) :
  reachable this ->
  segmentsInSync this
  /\ forall k f, _formatterMap this !! k = Some f -> toLowerCase k = k.
Proof. apply reachable_invariant. Qed.

Lemma object_invariant_witness :
  let this := addFormatter "Foo" boldFormatter
                (fst (setTemplateString "a${foo:bar}" newTemplateString)) in
  segmentsInSync this
  /\ forall k f, _formatterMap this !! k = Some f -> toLowerCase k = k.
Proof.
  intros this.
  apply (object_invariant this). apply reachable_add, reachable_set, reachable_new.
Defined.

(** X9. Registering under a namespace that differs from an earlier one only
    in letter case replaces the earlier formatter: the object is the same as
    if the earlier registration had not been made. *)
Theorem addFormatter_last_wins (ns1 ns2 : string) (f1 f2 : FieldFormatter.t)
    (this : TemplateString) :
  toLowerCase ns1 = toLowerCase ns2 ->
  addFormatter ns2 f2 (addFormatter ns1 f1 this) = addFormatter ns2 f2 this
  /\ _formatterMap (addFormatter ns2 f2 (addFormatter ns1 f1 this)) !! toLowerCase ns1
     = Some f2.
Proof.
  intros Hcase. unfold addFormatter. cbn [_template _segments _formatterMap].
  rewrite Hcase, insert_insert_eq. split; [done | apply lookup_insert_eq].
Qed.

Lemma addFormatter_last_wins_witness :
  let other := {| FieldFormatter.formatHtml := fun key => key;
                  FieldFormatter.getErrorMessage := fun _ => None |} in
  addFormatter "FOO" other (addFormatter "foo" boldFormatter newTemplateString)
  = addFormatter "FOO" other newTemplateString
  /\ _formatterMap
       (addFormatter "FOO" other (addFormatter "foo" boldFormatter newTemplateString))
       !! toLowerCase "foo" = Some other.
Proof.
  intros other.
  apply (addFormatter_last_wins "foo" "FOO" boldFormatter other newTemplateString).
  reflexivity.
Defined.

(** X10. Registrations under namespaces that differ by more than letter
    case do not interfere: they can be made in either order, and each leaves
    the lookup of the other namespace as it was. *)
Theorem addFormatter_independent (ns1 ns2 : string) (f1 f2 : FieldFormatter.t)
    (this : TemplateString) :
  toLowerCase ns1 <> toLowerCase ns2 ->
  addFormatter ns1 f1 (addFormatter ns2 f2 this)
  = addFormatter ns2 f2 (addFormatter ns1 f1 this)
  /\ _formatterMap (addFormatter ns1 f1 this) !! toLowerCase ns2
     = _formatterMap this !! toLowerCase ns2.
Proof.
  intros Hne. unfold addFormatter. cbn [_template _segments _formatterMap]. split.
  - f_equal. by apply insert_insert_ne.
  - by apply lookup_insert_ne.
Qed.

Lemma addFormatter_independent_witness :
  addFormatter "user" boldFormatter (addFormatter "acct" boldFormatter newTemplateString)
  = addFormatter "acct" boldFormatter (addFormatter "user" boldFormatter newTemplateString)
  /\ _formatterMap (addFormatter "user" boldFormatter newTemplateString)
       !! toLowerCase "acct"
     = _formatterMap newTemplateString !! toLowerCase "acct".
Proof.
  apply (addFormatter_independent "user" "acct" boldFormatter boldFormatter
           newTemplateString).
  discriminate.
Defined.

(** X11. [setTemplateString] always returns normally and replaces the
    template and the segments wholesale: what an earlier call had set is
    gone, and [getTemplateString] gives back the last template. It leaves
    the formatters alone, so that it commutes with [addFormatter]: the two
    can be called in either order. *)
Theorem setTemplateString_composes (t1 t2 ns : string) (f : FieldFormatter.t)
    (this : TemplateString) :
  snd (setTemplateString t2 this) = Done tt
  /\ getTemplateString (fst (setTemplateString t2 this)) = Some t2
  /\ fst (setTemplateString t2 (fst (setTemplateString t1 this)))
     = fst (setTemplateString t2 this)
  /\ fst (setTemplateString t2 (addFormatter ns f this))
     = addFormatter ns f (fst (setTemplateString t2 this)).
Proof.
  destruct (setTemplateString_spec t1 this) as (s1 & _ & H1).
  destruct (setTemplateString_spec t2 this) as (s2 & Hp2 & H2).
  destruct (setTemplateString_spec t2 (fst (setTemplateString t1 this)))
    as (s2' & Hp2' & H2').
  destruct (setTemplateString_spec t2 (addFormatter ns f this)) as (s2'' & Hp2'' & H2'').
  rewrite Hp2 in Hp2', Hp2''. injection Hp2' as <-. injection Hp2'' as <-.
  rewrite H2', H2'', H2, H1. done.
Qed.

Section MoreRenderingFacts.

Variable he_encode : string -> string.

(** X12. The renders of an object throw a TypeError exactly as long as no
    template has been set: on a new object, also after registrations, both
    throw; once [setTemplateString] has been called, both return. *)
Theorem render_needs_template (this : TemplateString) :
  reachable this ->
  (getTemplateString this = None ->
   formatHtml he_encode this = Thrown "TypeError"
   /\ formatDiagnosticHtml he_encode this = Thrown "TypeError")
  /\ (getTemplateString this <> None ->
      (exists html calls, formatHtml he_encode this = Done (html, calls))
      /\ (exists html calls, formatDiagnosticHtml he_encode this = Done (html, calls))).
Proof.
  intros [Hsync _]%reachable_invariant.
  unfold segmentsInSync, getTemplateString, formatHtml, formatDiagnosticHtml,
    renderWith in *.
  destruct (_template this) as [t|], (_segments this) as [segs|];
    [ | done | done | ].
  - split; [done|]. intros _. split; by eexists _, _.
  - split; [done|]. intros H. by destruct H.
Qed.

Lemma diagnostic_calls_count (formatterMap : gmap string FieldFormatter.t)
    (segs : list Segment) :
  countIf isGetErrorMessageCall
    (concat (map snd (map (formatDiagnosticHtmlSegment he_encode formatterMap) segs)))
  = countIf (registeredField formatterMap) segs.
Proof.
  induction segs as [|seg segs IH]; [done|].
  cbn [map concat]. rewrite countIf_app, countIf_cons, IH. f_equal.
  destruct seg as [t s e | ns key s e | t err s e];
    cbn [formatDiagnosticHtmlSegment registeredField]; [done | | done].
  destruct (formatterMap !! toLowerCase ns) as [f|]; [|done].
  by destruct (FieldFormatter.getErrorMessage f key).
Qed.

Lemma diagnostic_formatHtml_calls (formatterMap : gmap string FieldFormatter.t)
    (segs : list Segment) (ns key : string) :
  FormatHtmlCall ns key
    ∈ concat (map snd (map (formatDiagnosticHtmlSegment he_encode formatterMap) segs)) ->
  exists f, formatterMap !! ns = Some f /\ FieldFormatter.getErrorMessage f key = None.
Proof.
  induction segs as [|seg segs IH]; cbn [map concat]; [by intros ?%elem_of_nil|].
  intros [Hin | Hin]%elem_of_app; [|by apply IH].
  destruct seg as [t s e | ns' key' s e | t err s e];
    cbn [formatDiagnosticHtmlSegment snd] in Hin;
    [by apply elem_of_nil in Hin | | by apply elem_of_nil in Hin].
  destruct (formatterMap !! toLowerCase ns') as [f|] eqn:Ef;
    [|by apply elem_of_nil in Hin].
  destruct (FieldFormatter.getErrorMessage f key') eqn:Ee; cbn [snd] in Hin.
  - apply list_elem_of_singleton in Hin. done.
  - apply elem_of_cons in Hin as [Hin | Hin]; [done|].
    apply list_elem_of_singleton in Hin. injection Hin as -> ->. by exists f.
Qed.

(** X13. The diagnostic render calls [getErrorMessage] once for each Field
    segment whose namespace has a formatter, and for no other segment; it
    calls [formatHtml] only on a registered formatter and only with a key
    for which that formatter's [getErrorMessage] returned [null]. *)
Theorem diagnostic_render_calls (this : TemplateString) (segs : list Segment) :
  _segments this = Some segs ->
  exists html calls,
    formatDiagnosticHtml he_encode this = Done (html, calls)
    /\ countIf isGetErrorMessageCall calls
       = countIf (registeredField (_formatterMap this)) segs
    /\ forall ns key,
         FormatHtmlCall ns key ∈ calls ->
         exists f, _formatterMap this !! ns = Some f
                   /\ FieldFormatter.getErrorMessage f key = None.
Proof.
  intros Hsegs. unfold formatDiagnosticHtml.
  rewrite (renderWith_segments _ _ _ Hsegs). eexists _, _. split; [done|].
  split; [apply diagnostic_calls_count|].
  intros ns key. apply diagnostic_formatHtml_calls.
Qed.

(** X14. After [setTemplateString] with a non-empty template in which [{]
    does not occur, whatever formatters are registered: the plain render is
    [he.encode] of the template with its escapes read, the diagnostic render
    is the same inside a [segment_text] span, and no formatter is called. *)
Theorem render_without_brace (template : string) (this : TemplateString) :
  occurs "{" template = false -> template <> "" ->
  let this' := fst (setTemplateString template this) in
  formatHtml he_encode this' = Done (he_encode (unescape template), [])
  /\ formatDiagnosticHtml he_encode this'
     = Done (spanOpen "segment_text" +:+ he_encode (unescape template) +:+ spanClose,
             []).
Proof.
  intros Hno Hne this'.
  destruct (setTemplateString_fields template this) as (segs & Hp & _ & _ & Hs & _).
  rewrite (parse_brace_free template Hno) in Hp. injection Hp as <-.
  unfold formatHtml, formatDiagnosticHtml.
  rewrite !(renderWith_segments _ _ _ Hs).
  destruct template as [|c s]; [done|].
  cbn [map formatHtmlSegment formatDiagnosticHtmlSegment fst snd concat app].
  by rewrite !join_cons, join_nil, !append_nil_r.
Qed.

End MoreRenderingFacts.

Lemma render_needs_template_witness :
  formatHtml noEscape (addFormatter "foo" boldFormatter newTemplateString)
  = Thrown "TypeError"
  /\ formatDiagnosticHtml noEscape (addFormatter "foo" boldFormatter newTemplateString)
     = Thrown "TypeError".
Proof.
  apply (proj1 (render_needs_template noEscape
                  (addFormatter "foo" boldFormatter newTemplateString)
                  (reachable_add _ _ _ reachable_new))).
  reflexivity.
Defined.

Lemma diagnostic_render_calls_witness :
  let this := fst (setTemplateString "${foo:bar}${x:y}"
                     (addFormatter "Foo" boldFormatter newTemplateString)) in
  exists html calls,
    formatDiagnosticHtml noEscape this = Done (html, calls)
    /\ countIf isGetErrorMessageCall calls
       = countIf (registeredField (_formatterMap this))
           [FieldSegment "foo" "bar" 0 10; FieldSegment "x" "y" 10 16]
    /\ forall ns key,
         FormatHtmlCall ns key ∈ calls ->
         exists f, _formatterMap this !! ns = Some f
                   /\ FieldFormatter.getErrorMessage f key = None.
Proof.
  intros this.
  apply (diagnostic_render_calls noEscape this
           [FieldSegment "foo" "bar" 0 10; FieldSegment "x" "y" 10 16]).
  reflexivity.
Defined.

Lemma render_without_brace_witness :
  let this' := fst (setTemplateString "5 < 6 \$" newTemplateString) in
  formatHtml noEscape this' = Done (noEscape (unescape "5 < 6 \$"), [])
  /\ formatDiagnosticHtml noEscape this'
     = Done (spanOpen "segment_text" +:+ noEscape (unescape "5 < 6 \$") +:+ spanClose,
             []).
Proof.
  apply (render_without_brace noEscape "5 < 6 \$" newTemplateString);
    [reflexivity | discriminate].
Defined.

(** * The lookahead and the field phase on their own *)

Lemma completeField_returns (toks : list Token) (idx : nat) (t1 t3 : Token) :
  toks !! S idx = Some t1 -> toks !! S (S (S idx)) = Some t3 ->
  _processCompleteField toks idx =
  Done (FieldSegment (text t1) (text t3) 0
          (2 + String.length (text t1) + 1 + String.length (text t3) + 1),
        S (S (S (S (S idx))))).
Proof.
  intros H1 H3. unfold _processCompleteField, bind, _takeToken.
  rewrite H1. cbn [deref ret]. rewrite H3. reflexivity.
Qed.

Lemma completeField_throws (toks : list Token) (idx : nat) :
  length toks <= S (S (S idx)) ->
  _processCompleteField toks idx = Thrown "TypeError".
Proof.
  intros Hlen. unfold _processCompleteField, bind, _takeToken.
  destruct (toks !! S idx) as [t1|]; [|done]. cbn [deref ret].
  rewrite (lookup_ge_None_2 toks (S (S (S idx)))) by lia. reflexivity.
Qed.

(** X15. With the cursor within the tokens, the lookahead
    [_checkFieldTokens] returns without moving the cursor, and without
    reading past the end. When it passes, [_processCompleteField] returns the
    Field segment of the second and fourth tokens, which are SYMBOLs, and
    moves the cursor by five, not past the end. The lookahead is needed:
    with fewer than four tokens left it does not pass, and
    [_processCompleteField] would throw a TypeError. *)
Theorem lookahead_guards_field (toks : list Token) (idx : nat) :
  idx <= length toks ->
  let pass := typesMatch fieldTokenTypeList (drop idx toks) in
  _checkFieldTokens toks idx = Done (pass, idx)
  /\ (pass = true ->
      exists ns key,
        toks !! (idx + 1) = Some {| type := SYMBOL; text := ns |}
        /\ toks !! (idx + 3) = Some {| type := SYMBOL; text := key |}
        /\ _processCompleteField toks idx
           = Done (FieldSegment ns key 0
                     (2 + String.length ns + 1 + String.length key + 1), idx + 5)
        /\ idx + 5 <= length toks)
  /\ (length toks <= idx + 3 ->
      pass = false /\ _processCompleteField toks idx = Thrown "TypeError").
Proof.
  intros Hle pass. split; [by apply checkField_spec|]. split.
  - intros Hpass. subst pass.
    apply typesMatch_field in Hpass
      as (t0 & t1 & t2 & t3 & t4 & rest & El & _ & H1 & _ & H3 & _).
    assert (L1 : toks !! (idx + 1) = Some t1) by by rewrite (lookup_of_drop _ _ _ 1 El).
    assert (L3 : toks !! (idx + 3) = Some t3) by by rewrite (lookup_of_drop _ _ _ 3 El).
    exists (text t1), (text t3).
    split; [by destruct t1; cbn in *; subst|].
    split; [by destruct t3; cbn in *; subst|].
    split.
    + rewrite (completeField_returns toks idx t1 t3).
      * apply (f_equal Done), (f_equal2 pair); [done | lia].
      * by replace (S idx) with (idx + 1) by lia.
      * by replace (S (S (S idx))) with (idx + 3) by lia.
    + apply (f_equal length) in El. rewrite length_drop in El. cbn in El. lia.
  - intros Hlen. split.
    + subst pass. destruct (typesMatch fieldTokenTypeList (drop idx toks)) eqn:E; [|done].
      apply typesMatch_field in E as (t0 & t1 & t2 & t3 & t4 & rest & El & _).
      apply (f_equal length) in El. rewrite length_drop in El. cbn in El. lia.
    + apply completeField_throws. lia.
Qed.

Lemma lookahead_guards_field_witness :
  let toks := [ {| type := OPEN_BRACKET; text := "${" |};
                {| type := SYMBOL; text := "a" |};
                {| type := COLON; text := ":" |} ] in
  let pass := typesMatch fieldTokenTypeList (drop 0 toks) in
  _checkFieldTokens toks 0 = Done (pass, 0)
  /\ (pass = true ->
      exists ns key,
        toks !! (0 + 1) = Some {| type := SYMBOL; text := ns |}
        /\ toks !! (0 + 3) = Some {| type := SYMBOL; text := key |}
        /\ _processCompleteField toks 0
           = Done (FieldSegment ns key 0
                     (2 + String.length ns + 1 + String.length key + 1), 0 + 5)
        /\ 0 + 5 <= length toks)
  /\ (length toks <= 0 + 3 ->
      pass = false /\ _processCompleteField toks 0 = Thrown "TypeError").
Proof.
  intros toks. apply (lookahead_guards_field toks 0). cbn. lia.
Defined.

(** X16. The field phase relies on the text phase having run: with a STRING
    or ESCAPE_DOLLAR token next, [_processFieldStateTokens] returns an Error
    segment with an empty text and leaves the cursor where it is. *)
Theorem field_phase_on_text (toks : list Token) (idx : nat) (tok : Token) :
  toks !! idx = Some tok -> isText tok = true ->
  _processFieldStateTokens toks idx = Done ([ErrorSegment "" "" 0 0], idx).
Proof.
  intros Hl Ht. pose proof (lookup_lt_Some _ _ _ Hl) as Hlt.
  rewrite fieldState_spec by lia.
  rewrite (drop_S _ _ _ Hl). unfold fieldPhase. cbn [headType typesMatch fieldTokenTypeList].
  unfold isText in Ht.
  assert (Hb : isBad tok = false) by (unfold isBad; destruct (type tok); done).
  rewrite (run_cons_false _ _ _ Hb).
  destruct (type tok); try done; cbn; by rewrite Nat.add_0_r.
Qed.

Lemma field_phase_on_text_witness :
  _processFieldStateTokens [ {| type := STRING; text := "a" |} ] 0
  = Done ([ErrorSegment "" "" 0 0], 0).
Proof.
  apply (field_phase_on_text [ {| type := STRING; text := "a" |} ] 0
           {| type := STRING; text := "a" |}); reflexivity.
Defined.

(** * What a render depends on *)

Section RenderFrame.

Variable he_encode : string -> string.

Lemma render_callbacks_agree (m1 m2 : gmap string FieldFormatter.t) (seg : Segment) :
  (forall ns key s e, seg = FieldSegment ns key s e ->
                      m1 !! toLowerCase ns = m2 !! toLowerCase ns) ->
  formatHtmlSegment he_encode m1 seg = formatHtmlSegment he_encode m2 seg
  /\ formatDiagnosticHtmlSegment he_encode m1 seg
     = formatDiagnosticHtmlSegment he_encode m2 seg.
Proof.
  intros H. destruct seg as [t s e | ns key s e | t err s e]; [done | | done].
  cbn [formatHtmlSegment formatDiagnosticHtmlSegment].
  by rewrite (H ns key s e eq_refl).
Qed.

(** X17. A render depends on the formatter map only through the namespaces
    that the Field segments refer to: two objects with the same segments,
    whose maps agree on the lower-cased namespace of every Field segment,
    have the same plain render and the same diagnostic render, calls
    included. *)
Theorem render_depends_on_referenced (this1 this2 : TemplateString)
    (segs : list Segment) :
  _segments this1 = Some segs -> _segments this2 = Some segs ->
  (forall ns key s e,
      FieldSegment ns key s e ∈ segs ->
      _formatterMap this1 !! toLowerCase ns = _formatterMap this2 !! toLowerCase ns) ->
  formatHtml he_encode this1 = formatHtml he_encode this2
  /\ formatDiagnosticHtml he_encode this1 = formatDiagnosticHtml he_encode this2.
Proof.
  intros H1 H2 Hagree. unfold formatHtml, formatDiagnosticHtml.
  rewrite !(renderWith_segments _ _ _ H1), !(renderWith_segments _ _ _ H2).
  assert (Hcb : forall seg, List.In seg segs ->
            formatHtmlSegment he_encode (_formatterMap this1) seg
            = formatHtmlSegment he_encode (_formatterMap this2) seg
            /\ formatDiagnosticHtmlSegment he_encode (_formatterMap this1) seg
               = formatDiagnosticHtmlSegment he_encode (_formatterMap this2) seg).
  { intros seg Hin. apply render_callbacks_agree.
    intros ns key s e ->. apply (Hagree ns key s e). by apply list_elem_of_In. }
  rewrite (List.map_ext_in _ _ segs (fun seg Hin => proj1 (Hcb seg Hin))).
  rewrite (List.map_ext_in _ _ segs (fun seg Hin => proj2 (Hcb seg Hin))).
  done.
Qed.

End RenderFrame.

Lemma render_depends_on_referenced_witness :
  let this1 := fst (setTemplateString "${foo:bar}"
                      (addFormatter "foo" boldFormatter newTemplateString)) in
  let this2 := fst (setTemplateString "${foo:bar}"
                      (addFormatter "other" boldFormatter
                         (addFormatter "foo" boldFormatter newTemplateString))) in
  formatHtml noEscape this1 = formatHtml noEscape this2
  /\ formatDiagnosticHtml noEscape this1 = formatDiagnosticHtml noEscape this2.
Proof.
  intros this1 this2.
  apply (render_depends_on_referenced noEscape this1 this2
           [FieldSegment "foo" "bar" 0 10]); [reflexivity | reflexivity |].
  intros ns key s e Hin. apply list_elem_of_singleton in Hin.
  injection Hin as -> -> -> ->. reflexivity.
Defined.
